(** * vec.h: generic vectors behind a fat pointer

    A shallow embedding of [src/vec.h] (VEC 1.0.0).  A vec is one heap
    block, [header | item 0 | item 1 | ...]; the header holds three
    [size_t] words (capacity, length, item size) and the user's pointer
    addresses the first item.  The embedding keeps the three header words
    and the bytes behind the user's pointer, computes every [size_t]
    expression with its wrap-around, types the integer arguments of the
    macro-functions as C does, and checks every access to the data bytes
    against the size of the block.

    Conventions: [size_t] has 64 bits; header words are compared with each
    other and with the constants of the source as the integers they hold;
    [vec_remove] is a function, so its index arrives as a [size_t] value;
    an item is the list of its bytes, and [vec[i] = item] writes
    [sizeof item] bytes at byte offset [i * sizeof item]. *)

From Stdlib Require Import ZArith Lia Bool.
From Stdlib Require Import Init.Byte.
From stdpp Require Import base tactics option list numbers.

Local Open Scope Z_scope.

(** ** C integers (LP64) *)

(** The macro-functions [vec_insert] and [vec_reserve] take their integer
    argument untyped, so the guard they evaluate depends on the C type of
    the argument.  [Int128] stands for the compilers' extended type that is
    wider than [size_t]. *)
Inductive ctype : Set := Int | UInt | Long | ULong | Int128.

Definition bits (t : ctype) : Z :=
  match t with
  | Int | UInt => 32
  | Long | ULong => 64
  | Int128 => 128
  end.

Definition signed (t : ctype) : bool :=
  match t with
  | Int | Long | Int128 => true
  | UInt | ULong => false
  end.

(** Conversion of a value to type [t]: reduction modulo [2^bits], read in
    two's complement for the signed types. *)
Definition conv (t : ctype) (z : Z) : Z :=
  if signed t
  then (z + 2 ^ (bits t - 1)) mod 2 ^ bits t - 2 ^ (bits t - 1)
  else z mod 2 ^ bits t.

(** The usual arithmetic conversions: the wider type wins, and of two
    types of one width the unsigned one. *)
Definition arith (a b : ctype) : ctype :=
  if bits a <? bits b then b
  else if bits b <? bits a then a
  else if signed a then b else a.

Record cint : Set := mkint { ty : ctype; val : Z }.

(** [x] holds a value of its own type. *)
Definition in_range (x : cint) : Prop := conv (ty x) (val x) = val x.

Definition cast (t : ctype) (x : cint) : cint := mkint t (conv t (val x)).

Definition c_arith (f : Z -> Z -> Z) (x y : cint) : cint :=
  let t := arith (ty x) (ty y) in
  mkint t (conv t (f (conv t (val x)) (conv t (val y)))).

Definition c_cmp (p : Z -> Z -> bool) (x y : cint) : bool :=
  let t := arith (ty x) (ty y) in
  p (conv t (val x)) (conv t (val y)).

Definition c_add := c_arith Z.add.
Definition c_sub := c_arith Z.sub.
Definition c_mul := c_arith Z.mul.
Definition c_eq := c_cmp Z.eqb.
Definition c_le := c_cmp Z.leb.
Definition c_ge := c_cmp Z.geb.
Definition c_gt := c_cmp Z.gtb.

(** An integer constant such as [0] or [1] has type [int]. *)
Definition lit (z : Z) : cint := mkint Int z.

(** ** [size_t] *)

Definition SIZE_MAX : Z := 2 ^ 64 - 1.

(** Reduction of an arithmetic result to [size_t]. *)
Definition size_t (z : Z) : Z := z mod 2 ^ 64.

(** A [size_t] value as an operand of a typed expression. *)
Definition sz (z : Z) : cint := mkint ULong z.

(** [sizeof(size_t) * 3], the size of the header. *)
Definition HDR : Z := 8 * 3.

(** [#define VEC_MAX_PREALLOC (1024*1024)] *)
Definition VEC_MAX_PREALLOC : Z := 1024 * 1024.

(** ** The block behind a vec *)

(** [hdr_cap], [hdr_len] and [hdr_item_size] are the words read by
    [_vec_hdr_cap], [_vec_hdr_len] and [_vec_hdr_item_size]; [data] is
    the part of the block that starts at the user's pointer. *)
Record vec : Type := mkvec {
  hdr_cap : Z;
  hdr_len : Z;
  hdr_item_size : Z;
  data : list byte
}.

Definition with_cap (v : vec) (c : Z) : vec :=
  mkvec c (hdr_len v) (hdr_item_size v) (data v).
Definition with_len (v : vec) (l : Z) : vec :=
  mkvec (hdr_cap v) l (hdr_item_size v) (data v).
Definition with_data (v : vec) (d : list byte) : vec :=
  mkvec (hdr_cap v) (hdr_len v) (hdr_item_size v) d.

(** [sizeof] of an item given by its bytes. *)
Definition sizeof (item : list byte) : Z := Z.of_nat (length item).

(** ** Outcomes *)

(** A call returns ([Done]), stops the process in [raise(SIGSEGV)]
    ([Killed], under the default disposition of the signal), or touches
    memory outside the block ([Undefined]).  The last two carry what the
    caller's vec looked like at that point. *)
Inductive outcome (S A : Type) : Type :=
| Done (a : A)
| Killed (s : S)
| Undefined (s : S).
Arguments Done {S A} a.
Arguments Killed {S A} s.
Arguments Undefined {S A} s.

#[global] Instance outcome_bind {S : Type} : MBind (outcome S) :=
  fun A B (k : A -> outcome S B) (m : outcome S A) =>
    match m with
    | Done a => k a
    | Killed s => Killed s
    | Undefined s => Undefined s
    end.

(** ** Memory primitives *)

(** What an allocation primitive answers: [None] is the null pointer,
    [Some junk] a block whose fresh bytes read [junk 0], [junk 1], ... *)
Definition reply : Type := option (nat -> byte).

Definition fresh (junk : nat -> byte) (from n : nat) : list byte :=
  junk <$> seq from n.

(** [realloc] keeps the bytes that fit in the new size; the rest of a
    larger block is unspecified. *)
Definition resize_block (junk : nat -> byte) (n : nat) (d : list byte) : list byte :=
  take n d ++ fresh junk (length d) (n - length d).

(** [memmove(d + dst, d + src, n)] inside the data bytes. *)
Definition memmove (d : list byte) (dst src n : Z) : option (list byte) :=
  if (0 <=? dst) && (0 <=? src) && (0 <=? n)
     && (dst + n <=? Z.of_nat (length d)) && (src + n <=? Z.of_nat (length d))
  then Some (take (Z.to_nat dst) d
             ++ take (Z.to_nat n) (drop (Z.to_nat src) d)
             ++ drop (Z.to_nat (dst + n)) d)
  else None.

(** [vec[i] = item] as a write of [sizeof item] bytes at byte offset [off]. *)
Definition store (d : list byte) (off : Z) (item : list byte) : option (list byte) :=
  if (0 <=? off) && (off + sizeof item <=? Z.of_nat (length d))
  then Some (take (Z.to_nat off) d ++ item ++ drop (Z.to_nat (off + sizeof item)) d)
  else None.

(** [memcpy(dst, src, n)] from the start of one region to the start of
    another. *)
Definition memcpy (dst src : list byte) (n : Z) : option (list byte) :=
  if (0 <=? n) && (n <=? Z.of_nat (length dst)) && (n <=? Z.of_nat (length src))
  then Some (take (Z.to_nat n) src ++ drop (Z.to_nat n) dst)
  else None.

(** [memset(d, 0, n)] *)
Definition memset0 (d : list byte) (n : Z) : option (list byte) :=
  if (0 <=? n) && (n <=? Z.of_nat (length d))
  then Some (replicate (Z.to_nat n) x00 ++ drop (Z.to_nat n) d)
  else None.

(** The bytes of [vec[i]] for an item type of [hdr_item_size] bytes. *)
Definition element (v : vec) (i : Z) : list byte :=
  take (Z.to_nat (hdr_item_size v)) (drop (Z.to_nat (i * hdr_item_size v)) (data v)).

(** [_vec_total_size] *)
Definition vec_total_size (v : vec) : Z :=
  size_t (HDR + size_t (hdr_cap v * hdr_item_size v)).

(** ** Construction *)

(** The user's pointer is [block + HDR]; a block of fewer than [HDR]
    bytes has no such address. *)
Definition vec_newlen (r : reply) (size nitems : Z) : outcome unit vec :=
  let n := size_t (HDR + size_t (size * nitems)) in
  match r with
  | None => Killed ()
  | Some junk =>
      if n <? HDR then Undefined ()
      else
        match memset0 (fresh junk 0 (Z.to_nat (n - HDR))) (size_t (size * nitems)) with
        | None => Undefined ()
        | Some d => Done (mkvec nitems 0 size d)
        end
  end.

Definition vec_new (r : reply) (size : Z) : outcome unit vec :=
  vec_newlen r size 1.

Definition vec_newsize (r : reply) (size nitems : Z) : outcome unit vec :=
  vec_newlen r size nitems.

(** [memcpy] of [_vec_total_size(vec)] bytes, header included, into the
    new block. *)
Definition vec_dup (r : reply) (v : vec) : outcome vec vec :=
  let n := vec_total_size v in
  match r with
  | None => Killed v
  | Some junk =>
      if n <? HDR then Undefined v
      else
        match memcpy (fresh junk 0 (Z.to_nat (n - HDR))) (data v) (n - HDR) with
        | None => Undefined v
        | Some d => Done (with_data v d)
        end
  end.

(** ** Queries *)

Definition vec_cap (v : vec) : Z := hdr_cap v.
Definition vec_len (v : vec) : Z := hdr_len v.
Definition vec_size (v : vec) : Z := hdr_len v.
Definition vec_isempty (v : vec) : bool := if hdr_len v =? 0 then true else false.

(** ** Mutation without reallocation *)

Definition vec_clear (v : vec) : vec := with_len v 0.

Definition vec_pop (v : vec) : vec :=
  if 0 <? hdr_len v then with_len v (size_t (hdr_len v - 1)) else v.

Definition vec_remove (v : vec) (index : Z) : outcome vec vec :=
  if (0 <? hdr_len v) && (index <? hdr_len v) then
    match memmove (data v)
            (size_t (index * hdr_item_size v))
            (size_t (size_t (index + 1) * hdr_item_size v))
            (size_t (hdr_item_size v * size_t (hdr_len v - size_t (index + 1)))) with
    | None => Undefined v
    | Some d => Done (with_len (with_data v d) (size_t (hdr_len v - 1)))
    end
  else Done v.

(** ** Reallocation *)

(** [VEC_REALLOC(_vec_hdr_addr(vec), n)], the null check, and the new
    user pointer [temp + HDR]. *)
Definition reallocate (r : reply) (v : vec) (n : Z) : outcome vec vec :=
  match r with
  | None => Killed v
  | Some junk =>
      if n <? HDR then Undefined v
      else Done (with_data v (resize_block junk (Z.to_nat (n - HDR)) (data v)))
  end.

(** The growth block that [vec_push] and [vec_insert] both contain. *)
Definition new_cap (v : vec) : Z :=
  if hdr_cap v <=? VEC_MAX_PREALLOC
  then size_t (hdr_cap v * 2)
  else size_t (hdr_cap v + 1).

Definition grow (r : reply) (v : vec) : outcome vec vec :=
  if hdr_len v =? hdr_cap v then
    let new_total_size := size_t (HDR + size_t (new_cap v * hdr_item_size v)) in
    v' ← reallocate r v new_total_size;
    Done (with_cap v' (new_cap v))
  else Done v.

Definition vec_push (r : reply) (v : vec) (item : list byte) : outcome vec vec :=
  v1 ← grow r v;
  let v2 := with_len v1 (size_t (hdr_len v1 + 1)) in
  match store (data v2) (size_t (hdr_len v2 - 1) * sizeof item) item with
  | None => Undefined v2
  | Some d => Done (with_data v2 d)
  end.

Definition insert_guard (v : vec) (index : cint) : bool :=
  c_eq (cast ULong index) index
  && c_ge index (lit 0)
  && c_le index (sz (hdr_len v)).

Definition vec_insert (r : reply) (v : vec) (item : list byte) (index : cint)
  : outcome vec vec :=
  if insert_guard v index then
    v1 ← grow r v;
    let v2 := with_len v1 (size_t (hdr_len v1 + 1)) in
    let isz := sz (hdr_item_size v2) in
    match memmove (data v2)
            (val (c_mul (c_add index (lit 1)) isz))
            (val (c_mul index isz))
            (val (cast ULong
                    (c_mul isz (c_sub (c_sub (sz (hdr_len v2)) (lit 1)) index)))) with
    | None => Undefined v2
    | Some d =>
        match store d (val index * sizeof item) item with
        | None => Undefined (with_data v2 d)
        | Some d' => Done (with_data v2 d')
        end
    end
  else Done v.

Definition reserve_guard (v : vec) (size : cint) : bool :=
  c_eq (cast ULong size) size && c_gt size (sz (hdr_cap v)).

Definition vec_reserve (r : reply) (v : vec) (size : cint) : outcome vec vec :=
  if reserve_guard v size then
    v' ← reallocate r v
           (val (cast ULong
                   (c_add (sz HDR) (c_mul size (sz (hdr_item_size v))))));
    Done (with_cap v' (val (cast ULong size)))
  else Done v.

Definition vec_shrink (r : reply) (v : vec) : outcome vec vec :=
  if negb (hdr_cap v =? hdr_len v) then
    let new_cap := if 0 <? hdr_len v then hdr_len v else 1 in
    v' ← reallocate r v (size_t (HDR + size_t (new_cap * hdr_item_size v)));
    Done (with_cap v' new_cap)
  else Done v.

(** ** Well-formed vecs *)

(** The block really holds [hdr_cap] items of [hdr_item_size] bytes
    after its header, and its byte size is a [size_t]. *)
Definition wf (v : vec) : Prop :=
  0 <= hdr_item_size v <= SIZE_MAX
  /\ 0 <= hdr_len v <= hdr_cap v
  /\ hdr_cap v <= SIZE_MAX
  /\ Z.of_nat (length (data v)) = hdr_cap v * hdr_item_size v
  /\ HDR + hdr_cap v * hdr_item_size v <= SIZE_MAX.

(** [x + 1] is a value of the type of [x]. *)
Definition no_overflow_succ (x : cint) : Prop :=
  in_range (mkint (ty x) (val x + 1)).

(** [slice o k l]: the [k] bytes of [l] from offset [o]. *)
Definition slice (o k : nat) (l : list byte) : list byte := take k (drop o l).

(** The capacity after growth, as an integer. *)
Definition grown_cap (c : Z) : Z :=
  if c <=? VEC_MAX_PREALLOC then c * 2 else c + 1.

(** A full vec can grow: memory is granted, the capacity is not zero, and
    the grown capacity and the byte size of the grown block are [size_t]
    values. *)
Definition can_grow (r : reply) (v : vec) : Prop :=
  hdr_len v = hdr_cap v ->
  is_Some r /\ 1 <= hdr_cap v
  /\ grown_cap (hdr_cap v) <= SIZE_MAX
  /\ HDR + grown_cap (hdr_cap v) * hdr_item_size v <= SIZE_MAX.

(** [vec_push] of the items of a list, one after the other, with memory
    granted at every growth. *)
Fixpoint vec_push_all (junk : nat -> byte) (v : vec) (items : list (list byte))
  : outcome vec vec :=
  match items with
  | [] => Done v
  | item :: rest => v' ← vec_push (Some junk) v item; vec_push_all junk v' rest
  end.

(** The items a vec holds, in order: [vec[0]], ..., [vec[length - 1]]. *)
Definition contents (v : vec) : list (list byte) :=
  element v <$> seqZ 0 (hdr_len v).

(** ** Sequences of calls *)






(** ** Sample data *)

Definition bytes_ab : list byte := [x61; x62].

Definition junk_aa : nat -> byte := fun _ => xaa.

Definition item_10 : list byte := [x0a; x00; x00; x00].


(** The items 10, 20, 30, 40, 50 as four-byte integers. *)
Definition items_10_50 : list (list byte) :=
  [item_10; [x14; x00; x00; x00]; [x1e; x00; x00; x00];
   [x28; x00; x00; x00]; [x32; x00; x00; x00]].

(** * Properties *)

(** ** Integer arithmetic *)

Ltac red_consts :=
  change (2 ^ 64) with 18446744073709551616 in *;
  change (2 ^ 32) with 4294967296 in *;
  change (2 ^ 128) with 340282366920938463463374607431768211456 in *;
  change (2 ^ (32 - 1)) with 2147483648 in *;
  change (2 ^ (64 - 1)) with 9223372036854775808 in *;
  change (2 ^ (128 - 1)) with 170141183460469231731687303715884105728 in *;
  change SIZE_MAX with 18446744073709551615 in *;
  change HDR with 24 in *;
  change VEC_MAX_PREALLOC with 1048576 in *.

Ltac mod_lia := red_consts; Z.div_mod_to_equations; lia.

(** Evaluates [arith] on types that are known. *)
Ltac red_arith :=
  repeat match goal with
    | |- context [arith ?a ?b] =>
        let r := eval vm_compute in (arith a b) in change (arith a b) with r
    end.

Lemma size_t_id (z : Z) : 0 <= z <= SIZE_MAX -> size_t z = z.
Proof. unfold size_t. intros. apply Z.mod_small. red_consts. lia. Qed.

Lemma size_t_range (z : Z) : 0 <= size_t z <= SIZE_MAX.
Proof. unfold size_t. mod_lia. Qed.

Lemma in_range_bounds (x : cint) :
  in_range x <->
  (if signed (ty x)
   then - 2 ^ (bits (ty x) - 1) <= val x < 2 ^ (bits (ty x) - 1)
   else 0 <= val x < 2 ^ bits (ty x)).
Proof.
  destruct x as [t z]. unfold in_range, conv.
  destruct t; cbn [ty val signed bits]; split; intros; mod_lia.
Qed.

Lemma insert_guard_spec (v : vec) (index : cint) :
  in_range index -> 0 <= hdr_len v <= SIZE_MAX ->
  insert_guard v index = (0 <=? val index) && (val index <=? hdr_len v).
Proof.
  intros Hr Hl. apply in_range_bounds in Hr.
  destruct index as [t z].
  unfold insert_guard, c_eq, c_ge, c_le, c_cmp, cast, lit, sz, arith, conv.
  destruct t; cbn [ty val signed bits Z.ltb Z.compare Pos.compare Pos.compare_cont] in *;
    apply eq_true_iff_eq;
    rewrite ?andb_true_iff, ?Z.eqb_eq, ?Z.geb_le, ?Z.leb_le; mod_lia.
Qed.

(** ** Byte slices *)

Lemma element_slice (v : vec) (i : Z) :
  element v i
  = slice (Z.to_nat (i * hdr_item_size v)) (Z.to_nat (hdr_item_size v)) (data v).
Proof. reflexivity. Qed.

Lemma slice_lookup (o k i : nat) (l : list byte) :
  slice o k l !! i = if decide (i < k)%nat then l !! (o + i)%nat else None.
Proof. unfold slice. rewrite lookup_take, lookup_drop. reflexivity. Qed.

Lemma slice_app_l (o k : nat) (A B : list byte) :
  (o + k <= length A)%nat -> slice o k (A ++ B) = slice o k A.
Proof.
  intros H. apply list_eq; intros i. rewrite !slice_lookup.
  case_decide; [|reflexivity]. apply lookup_app_l. lia.
Qed.

Lemma slice_app_r (o k : nat) (A B : list byte) :
  (length A <= o)%nat -> slice o k (A ++ B) = slice (o - length A) k B.
Proof.
  intros H. apply list_eq; intros i. rewrite !slice_lookup.
  case_decide; [|reflexivity]. rewrite lookup_app_r by lia. f_equal. lia.
Qed.

Lemma slice_take (o k n : nat) (l : list byte) :
  (o + k <= n)%nat -> slice o k (take n l) = slice o k l.
Proof.
  intros H. apply list_eq; intros i. rewrite !slice_lookup.
  case_decide; [|reflexivity]. apply lookup_take_lt. lia.
Qed.

Lemma slice_drop (o k m : nat) (l : list byte) :
  slice o k (drop m l) = slice (m + o) k l.
Proof.
  apply list_eq; intros i. rewrite !slice_lookup.
  case_decide; [|reflexivity]. rewrite lookup_drop. f_equal. lia.
Qed.

Lemma slice_whole (l : list byte) : slice 0 (length l) l = l.
Proof. unfold slice. rewrite drop_0. apply take_ge. lia. Qed.

Lemma length_fresh (junk : nat -> byte) (from n : nat) :
  length (fresh junk from n) = n.
Proof. unfold fresh. rewrite length_fmap. apply length_seq. Qed.

Lemma length_resize_block (junk : nat -> byte) (n : nat) (d : list byte) :
  length (resize_block junk n d) = n.
Proof.
  unfold resize_block. rewrite length_app, length_take, length_fresh. lia.
Qed.

Lemma slice_resize_block (junk : nat -> byte) (o k n : nat) (d : list byte) :
  (o + k <= length d)%nat -> (o + k <= n)%nat ->
  slice o k (resize_block junk n d) = slice o k d.
Proof.
  intros Hd Hn. unfold resize_block.
  rewrite slice_app_l by (rewrite length_take; lia).
  apply slice_take. lia.
Qed.

Lemma memmove_Some (d : list byte) (dst src n : Z) :
  0 <= dst -> 0 <= src -> 0 <= n ->
  dst + n <= Z.of_nat (length d) -> src + n <= Z.of_nat (length d) ->
  memmove d dst src n
  = Some (take (Z.to_nat dst) d
          ++ take (Z.to_nat n) (drop (Z.to_nat src) d)
          ++ drop (Z.to_nat (dst + n)) d).
Proof.
  intros. unfold memmove.
  rewrite !(proj2 (Z.leb_le _ _)) by assumption. reflexivity.
Qed.

Lemma store_Some (d : list byte) (off : Z) (item : list byte) :
  0 <= off -> off + sizeof item <= Z.of_nat (length d) ->
  store d off item
  = Some (take (Z.to_nat off) d ++ item ++ drop (Z.to_nat (off + sizeof item)) d).
Proof.
  intros. unfold store.
  rewrite !(proj2 (Z.leb_le _ _)) by assumption. reflexivity.
Qed.

Lemma length_memmove (d d' : list byte) (dst src n : Z) :
  memmove d dst src n = Some d' -> length d' = length d.
Proof.
  unfold memmove. case_match eqn:E; [|discriminate]. intros [= <-].
  rewrite !andb_true_iff, !Z.leb_le in E.
  rewrite !length_app, !length_take, !length_drop. lia.
Qed.

Lemma length_store (d d' : list byte) (off : Z) (item : list byte) :
  store d off item = Some d' -> length d' = length d.
Proof.
  unfold store, sizeof. case_match eqn:E; [|discriminate]. intros [= <-].
  rewrite !andb_true_iff, !Z.leb_le in E.
  rewrite !length_app, !length_take, !length_drop. lia.
Qed.

(** ** [vec_remove] *)

Section Remove.
Variable v : vec.
Variable index : Z.
Hypothesis Hwf : wf v.
Hypothesis Hindex : 0 <= index < hdr_len v.

Let s := hdr_item_size v.
Let d := data v.

Lemma remove_offsets :
  0 <= index * s /\ (index + 1) * s = index * s + s
  /\ 0 <= s * (hdr_len v - (index + 1))
  /\ (index + 1) * s + s * (hdr_len v - (index + 1)) <= Z.of_nat (length d)
  /\ Z.of_nat (length d) + HDR <= SIZE_MAX.
Proof.
  destruct Hwf as (Hs & Hl & Hc & Hd & Ht). subst s d.
  rewrite Hd. repeat split; try nia.
Qed.

Lemma vec_remove_done :
  vec_remove v index
  = Done (with_len
            (with_data v
               (take (Z.to_nat (index * s)) d
                ++ take (Z.to_nat (s * (hdr_len v - (index + 1))))
                     (drop (Z.to_nat ((index + 1) * s)) d)
                ++ drop (Z.to_nat (index * s + s * (hdr_len v - (index + 1)))) d))
            (hdr_len v - 1)).
Proof.
  destruct remove_offsets as (H1 & H2 & H3 & H4 & H5).
  destruct Hwf as (Hs & Hl & Hc & Hd & Ht). fold s d in Hs, Hd, Ht.
  unfold vec_remove. fold s d.
  rewrite (proj2 (Z.ltb_lt 0 (hdr_len v))) by lia.
  rewrite (proj2 (Z.ltb_lt index (hdr_len v))) by lia.
  cbn [andb].
  rewrite (size_t_id (index + 1)) by (red_consts; lia).
  rewrite (size_t_id (hdr_len v - (index + 1))) by (red_consts; lia).
  rewrite (size_t_id (index * s)) by (red_consts; lia).
  rewrite (size_t_id ((index + 1) * s)) by (red_consts; lia).
  rewrite (size_t_id (s * _)) by (red_consts; lia).
  rewrite (size_t_id (hdr_len v - 1)) by (red_consts; lia).
  rewrite memmove_Some by lia. reflexivity.
Qed.
End Remove.

(** C5. On a vec that holds an item at [index], [vec_remove] returns with
    the length one less, capacity and item size as they were, the items
    before [index] untouched and every item that was at [j + 1], for
    [index <= j < length - 1], now at [j]; on an empty vec or with
    [index >= length] it returns the vec as it was. *)
Theorem vec_remove_shifts_left (v : vec) (index : Z) :
  wf v -> 0 <= index ->
  (index < hdr_len v ->
   exists v',
     vec_remove v index = Done v'
     /\ hdr_len v' = hdr_len v - 1
     /\ hdr_cap v' = hdr_cap v
     /\ hdr_item_size v' = hdr_item_size v
     /\ (forall j, 0 <= j < index -> element v' j = element v j)
     /\ (forall j, index <= j < hdr_len v - 1 -> element v' j = element v (j + 1)))
  /\ (hdr_len v = 0 \/ hdr_len v <= index -> vec_remove v index = Done v).
Proof.
  intros Hwf H0. split.
  - intros Hlt. eexists. split; [apply vec_remove_done; [assumption | lia]|].
    pose proof (remove_offsets v index Hwf (conj H0 Hlt)) as (H1 & H2 & H3 & H4 & H5).
    destruct Hwf as (Hs & Hl & Hc & Hd & Ht).
    cbn [hdr_len hdr_cap hdr_item_size with_len with_data].
    repeat split.
    + intros j Hj. rewrite !element_slice.
      cbn [hdr_len hdr_cap hdr_item_size data with_len with_data].
      assert (0 <= j * hdr_item_size v) by nia.
      assert (j * hdr_item_size v + hdr_item_size v <= index * hdr_item_size v) by nia.
      rewrite slice_app_l by (rewrite length_take; lia).
      apply slice_take. lia.
    + intros j Hj. rewrite !element_slice.
      cbn [hdr_len hdr_cap hdr_item_size data with_len with_data].
      assert (index * hdr_item_size v <= j * hdr_item_size v) by nia.
      assert ((j + 1) * hdr_item_size v = j * hdr_item_size v + hdr_item_size v) by lia.
      assert (j * hdr_item_size v + hdr_item_size v
              <= index * hdr_item_size v
                 + hdr_item_size v * (hdr_len v - (index + 1))) by nia.
      rewrite slice_app_r by (rewrite length_take; lia).
      rewrite slice_app_l by (rewrite !length_take, length_drop; lia).
      rewrite slice_take by (rewrite length_take; lia).
      rewrite slice_drop. f_equal. rewrite length_take. lia.
  - intros Hno. unfold vec_remove.
    destruct (0 <? hdr_len v) eqn:E1; [|reflexivity].
    destruct (index <? hdr_len v) eqn:E2; [|reflexivity].
    apply Z.ltb_lt in E1, E2. lia.
Qed.

Lemma vec_remove_shifts_left_witness :
  wf (mkvec 2 2 1 bytes_ab) /\ 0 <= 0 /\ 0 < 2
  /\ exists v',
       vec_remove (mkvec 2 2 1 bytes_ab) 0 = Done v'
       /\ hdr_len v' = 2 - 1
       /\ hdr_cap v' = 2
       /\ hdr_item_size v' = 1
       /\ (forall j, 0 <= j < 0 -> element v' j = element (mkvec 2 2 1 bytes_ab) j)
       /\ (forall j, 0 <= j < 2 - 1 ->
             element v' j = element (mkvec 2 2 1 bytes_ab) (j + 1)).
Proof.
  assert (Hwf : wf (mkvec 2 2 1 bytes_ab)) by (unfold wf; cbn; red_consts; lia).
  split; [exact Hwf|]. split; [lia|]. split; [lia|].
  apply (proj1 (vec_remove_shifts_left (mkvec 2 2 1 bytes_ab) 0 Hwf ltac:(lia))).
  cbn. lia.
Defined.

(** ** [vec_reserve] *)

Lemma conv_ULong (z : Z) : 0 <= z <= SIZE_MAX -> conv ULong z = z.
Proof. intros. unfold conv. cbn [signed bits]. apply Z.mod_small. red_consts. lia. Qed.

Lemma conv_Int128 (z : Z) : 0 <= z <= SIZE_MAX -> conv Int128 z = z.
Proof. intros. unfold conv. cbn [signed bits]. mod_lia. Qed.

Lemma reserve_guard_spec (v : vec) (n : cint) :
  in_range n -> 0 <= val n <= SIZE_MAX -> 0 <= hdr_cap v <= SIZE_MAX ->
  reserve_guard v n = (hdr_cap v <? val n).
Proof.
  intros Hr Hn Hc. apply in_range_bounds in Hr.
  destruct n as [t z].
  unfold reserve_guard, c_eq, c_gt, c_cmp, cast, sz, arith, conv.
  destruct t; cbn [ty val signed bits Z.ltb Z.compare Pos.compare Pos.compare_cont] in *;
    apply eq_true_iff_eq;
    rewrite ?andb_true_iff, ?Z.eqb_eq, ?Z.gtb_ltb, ?Z.ltb_lt; mod_lia.
Qed.

(** A negative [int] or [long] passes the guard of [vec_reserve] on every
    vec whose capacity is below the argument read as a [size_t]. *)
Lemma reserve_guard_negative (v : vec) (size : cint) :
  in_range size -> bits (ty size) <= 64 -> val size < 0 ->
  0 <= hdr_cap v < 2 ^ 64 + val size ->
  reserve_guard v size = true.
Proof.
  intros Hr Hb Hneg Hc. apply in_range_bounds in Hr.
  destruct size as [t z].
  unfold reserve_guard, c_eq, c_gt, c_cmp, cast, sz, arith, conv.
  destruct t; cbn [ty val signed bits Z.ltb Z.compare Pos.compare Pos.compare_cont] in *;
    rewrite ?andb_true_iff, ?Z.eqb_eq, ?Z.gtb_ltb, ?Z.ltb_lt; mod_lia.
Qed.

Lemma reserve_request (n : cint) (isz : Z) :
  0 <= val n <= SIZE_MAX -> 0 <= isz <= SIZE_MAX ->
  HDR + val n * isz <= SIZE_MAX ->
  val (cast ULong (c_add (sz HDR) (c_mul n (sz isz)))) = HDR + val n * isz.
Proof.
  intros Hn Hs Ht. destruct n as [t z]. cbn [val] in *.
  assert (0 <= z * isz) by nia.
  assert (0 <= HDR <= SIZE_MAX) by (red_consts; lia).
  unfold cast, c_add, c_mul, c_arith, sz. cbn [ty val].
  destruct t; red_arith;
    rewrite ?(conv_ULong z), ?(conv_ULong isz), ?(conv_ULong HDR),
      ?(conv_ULong (z * isz)), ?(conv_ULong (HDR + z * isz)),
      ?(conv_Int128 z), ?(conv_Int128 isz), ?(conv_Int128 HDR),
      ?(conv_Int128 (z * isz)), ?(conv_Int128 (HDR + z * isz)),
      ?(conv_ULong (HDR + z * isz)) by lia;
    reflexivity.
Qed.

Lemma vec_reserve_done (junk : nat -> byte) (v : vec) (n : cint) :
  wf v -> in_range n -> hdr_cap v < val n <= SIZE_MAX ->
  HDR + val n * hdr_item_size v <= SIZE_MAX ->
  vec_reserve (Some junk) v n
  = Done (with_cap
            (with_data v
               (resize_block junk (Z.to_nat (val n * hdr_item_size v)) (data v)))
            (val n)).
Proof.
  intros (Hs & Hl & Hc & Hd & Ht) Hr Hn Hfit.
  unfold vec_reserve.
  rewrite reserve_guard_spec by (assumption || lia).
  rewrite (proj2 (Z.ltb_lt _ _)) by lia.
  rewrite reserve_request by (assumption || lia).
  unfold reallocate.
  assert (0 <= val n * hdr_item_size v) by nia.
  rewrite (proj2 (Z.ltb_ge _ _)) by lia.
  cbn [mbind outcome_bind cast val].
  rewrite conv_ULong by lia.
  do 4 f_equal. lia.
Qed.

(** C6. [vec_reserve] with a size that is at most the capacity returns
    the vec as it was, whatever the allocator would have answered; with a
    larger size whose byte count fits [size_t], and memory granted, the
    capacity becomes exactly that size, the length and the item size stay
    and every slot of the old block keeps its bytes. *)
Theorem vec_reserve_exact (v : vec) (n : cint) :
  wf v -> in_range n -> 0 <= val n <= SIZE_MAX ->
  (val n <= hdr_cap v -> forall r, vec_reserve r v n = Done v)
  /\ (hdr_cap v < val n ->
      HDR + val n * hdr_item_size v <= SIZE_MAX ->
      forall junk, exists v',
        vec_reserve (Some junk) v n = Done v'
        /\ hdr_cap v' = val n
        /\ hdr_len v' = hdr_len v
        /\ hdr_item_size v' = hdr_item_size v
        /\ Z.of_nat (length (data v')) = val n * hdr_item_size v
        /\ (forall j, 0 <= j < hdr_cap v -> element v' j = element v j)).
Proof.
  intros Hwf Hr Hn. split.
  - intros Hle r. unfold vec_reserve.
    destruct Hwf as (Hs & Hl & Hc & Hd & Ht).
    rewrite reserve_guard_spec by (assumption || lia).
    rewrite (proj2 (Z.ltb_ge _ _)) by lia. reflexivity.
  - intros Hgt Hfit junk. eexists. split.
    { apply vec_reserve_done; [assumption | assumption | lia | assumption]. }
    destruct Hwf as (Hs & Hl & Hc & Hd & Ht).
    cbn [hdr_len hdr_cap hdr_item_size data with_cap with_data].
    assert (0 <= val n * hdr_item_size v) by nia.
    repeat split.
    + rewrite length_resize_block. lia.
    + intros j Hj. rewrite !element_slice.
      cbn [hdr_len hdr_cap hdr_item_size data with_cap with_data].
      assert (0 <= j * hdr_item_size v) by nia.
      assert (j * hdr_item_size v + hdr_item_size v
              <= hdr_cap v * hdr_item_size v) by nia.
      assert (hdr_cap v * hdr_item_size v <= val n * hdr_item_size v) by nia.
      apply slice_resize_block; lia.
Qed.

Lemma vec_reserve_exact_witness :
  wf (mkvec 2 2 1 bytes_ab) /\ in_range (mkint Int 5) /\ 0 <= 5 <= SIZE_MAX
  /\ (forall r, vec_reserve r (mkvec 2 2 1 bytes_ab) (mkint Int 2)
                = Done (mkvec 2 2 1 bytes_ab))
  /\ exists v',
       vec_reserve (Some junk_aa) (mkvec 2 2 1 bytes_ab) (mkint Int 5) = Done v'
       /\ hdr_cap v' = 5
       /\ hdr_len v' = 2
       /\ hdr_item_size v' = 1
       /\ Z.of_nat (length (data v')) = 5 * 1
       /\ (forall j, 0 <= j < 2 -> element v' j = element (mkvec 2 2 1 bytes_ab) j).
Proof.
  assert (Hwf : wf (mkvec 2 2 1 bytes_ab)) by (unfold wf; cbn; red_consts; lia).
  split; [exact Hwf|]. split; [reflexivity|]. split; [red_consts; lia|]. split.
  - apply (proj1 (vec_reserve_exact (mkvec 2 2 1 bytes_ab) (mkint Int 2) Hwf
                    eq_refl ltac:(cbn; red_consts; lia))).
    cbn. lia.
  - apply (proj2 (vec_reserve_exact (mkvec 2 2 1 bytes_ab) (mkint Int 5) Hwf
                    eq_refl ltac:(cbn; red_consts; lia)));
      cbn; red_consts; lia.
Defined.

(** ** [vec_shrink] *)

Lemma vec_shrink_done (junk : nat -> byte) (v : vec) :
  wf v -> hdr_cap v <> hdr_len v ->
  vec_shrink (Some junk) v
  = Done (with_cap
            (with_data v
               (resize_block junk
                  (Z.to_nat (Z.max (hdr_len v) 1 * hdr_item_size v)) (data v)))
            (Z.max (hdr_len v) 1)).
Proof.
  intros (Hs & Hl & Hc & Hd & Ht) Hne.
  unfold vec_shrink.
  rewrite (proj2 (Z.eqb_neq _ _)) by assumption. cbn [negb].
  assert (Hm : (if 0 <? hdr_len v then hdr_len v else 1) = Z.max (hdr_len v) 1).
  { destruct (Z.ltb_spec 0 (hdr_len v)); lia. }
  rewrite Hm.
  assert (0 <= Z.max (hdr_len v) 1 * hdr_item_size v <= hdr_cap v * hdr_item_size v)
    by nia.
  rewrite (size_t_id (_ * _)) by (red_consts; lia).
  rewrite size_t_id by (red_consts; lia).
  unfold reallocate.
  rewrite (proj2 (Z.ltb_ge _ _)) by lia.
  cbn [mbind outcome_bind].
  do 4 f_equal. lia.
Qed.

(** C7, as the code has it.  On a vec whose capacity differs from its
    length, [vec_shrink] with memory granted sets the capacity to
    [max length 1], keeps length, item size and the stored items; on a vec
    whose capacity equals its length it returns the vec as it was,
    whatever the allocator would have answered.  The capacity after
    [vec_shrink] is zero only for a vec that came in with capacity and
    length zero, which is returned as it was. *)
Theorem vec_shrink_to_fit (v : vec) :
  wf v ->
  (hdr_cap v <> hdr_len v ->
   forall junk, exists v',
     vec_shrink (Some junk) v = Done v'
     /\ hdr_cap v' = Z.max (hdr_len v) 1
     /\ hdr_len v' = hdr_len v
     /\ hdr_item_size v' = hdr_item_size v
     /\ (forall j, 0 <= j < hdr_len v -> element v' j = element v j))
  /\ (hdr_cap v = hdr_len v -> forall r, vec_shrink r v = Done v)
  /\ (forall r v',
        vec_shrink r v = Done v' -> hdr_cap v' = 0 ->
        v' = v /\ hdr_cap v = 0 /\ hdr_len v = 0).
Proof.
  intros Hwf. split; [|split].
  - intros Hne junk. eexists. split; [apply vec_shrink_done; assumption|].
    destruct Hwf as (Hs & Hl & Hc & Hd & Ht).
    cbn [hdr_len hdr_cap hdr_item_size data with_cap with_data].
    repeat split.
    intros j Hj. rewrite !element_slice.
    cbn [hdr_len hdr_cap hdr_item_size data with_cap with_data].
    assert (0 <= j * hdr_item_size v) by nia.
    assert (j * hdr_item_size v + hdr_item_size v
            <= Z.max (hdr_len v) 1 * hdr_item_size v) by nia.
    assert (Z.max (hdr_len v) 1 * hdr_item_size v
            <= hdr_cap v * hdr_item_size v) by nia.
    apply slice_resize_block; lia.
  - intros Heq r. unfold vec_shrink.
    rewrite (proj2 (Z.eqb_eq _ _)) by assumption. reflexivity.
  - intros r v' Hrun Hzero.
    destruct (Z.eq_dec (hdr_cap v) (hdr_len v)) as [Heq|Hne].
    + unfold vec_shrink in Hrun.
      rewrite (proj2 (Z.eqb_eq _ _)) in Hrun by assumption.
      cbn [negb] in Hrun. injection Hrun as <-.
      destruct Hwf as (Hs & Hl & Hc & Hd & Ht). repeat split; lia.
    + destruct r as [junk|].
      * rewrite vec_shrink_done in Hrun by assumption.
        injection Hrun as <-. cbn [hdr_cap with_cap] in Hzero. lia.
      * unfold vec_shrink, reallocate in Hrun.
        rewrite (proj2 (Z.eqb_neq _ _)) in Hrun by assumption.
        discriminate Hrun.
Qed.

Lemma vec_shrink_to_fit_witness :
  wf (mkvec 2 1 1 bytes_ab)
  /\ exists v',
       vec_shrink (Some junk_aa) (mkvec 2 1 1 bytes_ab) = Done v'
       /\ hdr_cap v' = Z.max 1 1
       /\ hdr_len v' = 1
       /\ hdr_item_size v' = 1
       /\ (forall j, 0 <= j < 1 -> element v' j = element (mkvec 2 1 1 bytes_ab) j).
Proof.
  assert (Hwf : wf (mkvec 2 1 1 bytes_ab)) by (unfold wf; cbn; red_consts; lia).
  split; [exact Hwf|].
  apply (proj1 (vec_shrink_to_fit (mkvec 2 1 1 bytes_ab) Hwf)).
  cbn. lia.
Defined.

(** C7 as the spec words it fails on the vec that [vec_newlen] builds for
    zero items: it is well formed, its capacity equals its length, so
    [vec_shrink] returns it with capacity zero. *)
Lemma vec_shrink_keeps_zero_capacity :
  vec_newlen (Some junk_aa) 4 0 = Done (mkvec 0 0 4 [])
  /\ wf (mkvec 0 0 4 [])
  /\ vec_shrink (Some junk_aa) (mkvec 0 0 4 []) = Done (mkvec 0 0 4 [])
  /\ hdr_cap (mkvec 0 0 4 []) = 0
  /\ ~ (forall r v v', wf v -> vec_shrink r v = Done v' -> hdr_cap v' <> 0).
Proof.
  assert (Hwf : wf (mkvec 0 0 4 [])) by (unfold wf; cbn; red_consts; lia).
  split; [reflexivity|]. split; [exact Hwf|].
  split; [reflexivity|]. split; [reflexivity|].
  intros H. apply (H (Some junk_aa) (mkvec 0 0 4 []) (mkvec 0 0 4 []) Hwf); reflexivity.
Qed.

(** ** Calls that are ignored *)

(** C8. [vec_insert] with an index below zero or above the length,
    [vec_remove] on an empty vec or with an index at or above the length,
    and [vec_pop] on an empty vec all return the very vec they were given:
    header words and bytes are the same, nothing is raised, and for
    [vec_insert] the allocator is not consulted. *)
Theorem invalid_calls_leave_vec_unchanged
    (v : vec) (r : reply) (item : list byte) (index : cint) (i : Z) :
  0 <= hdr_len v <= SIZE_MAX -> in_range index ->
  (val index < 0 \/ hdr_len v < val index -> vec_insert r v item index = Done v)
  /\ (hdr_len v = 0 \/ hdr_len v <= i -> vec_remove v i = Done v)
  /\ (hdr_len v = 0 -> vec_pop v = v).
Proof.
  intros Hl Hr. repeat split.
  - intros Hbad. unfold vec_insert.
    rewrite insert_guard_spec by assumption.
    destruct (Z.leb_spec 0 (val index)); [|reflexivity].
    rewrite (proj2 (Z.leb_gt _ _)) by lia. reflexivity.
  - intros Hbad. unfold vec_remove.
    destruct (Z.ltb_spec 0 (hdr_len v)); [|reflexivity].
    rewrite (proj2 (Z.ltb_ge _ _)) by lia. reflexivity.
  - intros Hempty. unfold vec_pop. rewrite Hempty. reflexivity.
Qed.

Lemma invalid_calls_leave_vec_unchanged_witness :
  0 <= 2 <= SIZE_MAX /\ in_range (mkint Int (-1))
  /\ vec_insert None (mkvec 2 2 1 bytes_ab) [x63] (mkint Int (-1))
     = Done (mkvec 2 2 1 bytes_ab)
  /\ vec_remove (mkvec 2 2 1 bytes_ab) 2 = Done (mkvec 2 2 1 bytes_ab).
Proof.
  assert (Hl : 0 <= hdr_len (mkvec 2 2 1 bytes_ab) <= SIZE_MAX)
    by (cbn; red_consts; lia).
  split; [exact Hl|]. split; [reflexivity|].
  destruct (invalid_calls_leave_vec_unchanged (mkvec 2 2 1 bytes_ab) None [x63]
              (mkint Int (-1)) 2 Hl eq_refl) as (Hins & Hrem & _).
  split; [apply Hins; left; cbn; lia | apply Hrem; right; cbn; lia].
Defined.

(** ** Allocation failure *)

(** C9. Every call that asks the allocator for memory and gets the null
    pointer ends in [raise(SIGSEGV)], and the vec it was working on is at
    that point exactly the vec it was given: the header is written only
    after the null check. *)
Theorem allocation_failure_is_fatal :
  (forall size nitems, vec_newlen None size nitems = Killed ())
  /\ (forall size, vec_new None size = Killed ())
  /\ (forall size nitems, vec_newsize None size nitems = Killed ())
  /\ (forall v, vec_dup None v = Killed v)
  /\ (forall v item, hdr_len v = hdr_cap v -> vec_push None v item = Killed v)
  /\ (forall v item index,
        insert_guard v index = true -> hdr_len v = hdr_cap v ->
        vec_insert None v item index = Killed v)
  /\ (forall v size, reserve_guard v size = true -> vec_reserve None v size = Killed v)
  /\ (forall v, hdr_cap v <> hdr_len v -> vec_shrink None v = Killed v).
Proof.
  repeat split; try reflexivity.
  - intros v item H. unfold vec_push, grow.
    rewrite (proj2 (Z.eqb_eq _ _)) by assumption. reflexivity.
  - intros v item index Hg H. unfold vec_insert, grow. rewrite Hg.
    rewrite (proj2 (Z.eqb_eq _ _)) by assumption. reflexivity.
  - intros v size Hg. unfold vec_reserve. rewrite Hg. reflexivity.
  - intros v H. unfold vec_shrink.
    rewrite (proj2 (Z.eqb_neq _ _)) by assumption. reflexivity.
Qed.

Lemma allocation_failure_is_fatal_witness :
  vec_push None (mkvec 2 2 1 bytes_ab) [x63] = Killed (mkvec 2 2 1 bytes_ab)
  /\ vec_insert None (mkvec 2 2 1 bytes_ab) [x63] (mkint Int 1)
     = Killed (mkvec 2 2 1 bytes_ab)
  /\ vec_reserve None (mkvec 2 2 1 bytes_ab) (mkint Int 3)
     = Killed (mkvec 2 2 1 bytes_ab)
  /\ vec_shrink None (mkvec 2 1 1 bytes_ab) = Killed (mkvec 2 1 1 bytes_ab).
Proof.
  destruct allocation_failure_is_fatal
    as (_ & _ & _ & _ & Hpush & Hins & Hres & Hshr).
  split; [apply Hpush; reflexivity|].
  split; [apply Hins; reflexivity|].
  split; [apply Hres; reflexivity|].
  apply Hshr. cbn. lia.
Defined.

(** ** The size query *)

(** C3, as the code has it: [vec_size] reads the length word, the same
    word as [vec_len]; the item size plays no part in it. *)
Theorem vec_size_is_length (v : vec) :
  vec_size v = hdr_len v /\ vec_size v = vec_len v.
Proof. split; reflexivity. Qed.

(** C3 as the spec words it fails on a fresh vec of four-byte items:
    [vec_size] answers 0, the item size is 4. *)
Lemma vec_size_is_not_item_size :
  vec_new (Some junk_aa) 4 = Done (mkvec 1 0 4 [x00; x00; x00; x00])
  /\ vec_size (mkvec 1 0 4 [x00; x00; x00; x00]) = 0
  /\ hdr_item_size (mkvec 1 0 4 [x00; x00; x00; x00]) = 4
  /\ ~ (forall v, vec_size v = hdr_item_size v).
Proof.
  split; [reflexivity|]. split; [reflexivity|]. split; [reflexivity|].
  intros H. specialize (H (mkvec 1 0 4 [x00; x00; x00; x00])). discriminate H.
Qed.

(** ** Vecs of capacity zero *)

(** C2 at its failing input.  [vec_newlen(4, 0)] returns a vec of
    capacity 0.  The first [vec_push] finds it full, doubles the capacity
    to 0, gets a block with no room behind the header, counts the length
    up to 1 and writes the item outside the block: at that point the
    length is above the capacity. *)
Theorem push_on_zero_capacity (junk junk' : nat -> byte) :
  vec_newlen (Some junk) 4 0 = Done (mkvec 0 0 4 [])
  /\ vec_push (Some junk') (mkvec 0 0 4 []) item_10 = Undefined (mkvec 0 1 4 [])
  /\ hdr_cap (mkvec 0 1 4 []) < hdr_len (mkvec 0 1 4 []).
Proof. split; [reflexivity|]. split; [reflexivity|]. cbn. lia. Qed.

(** C4 at its failing input.  [vec_insert] at index 0 of the same vec
    passes the guard, doubles the capacity to 0, counts the length up to 1
    and then addresses [vec + 4] in a block that has no byte behind its
    header: nothing is stored at index 0. *)
Theorem insert_on_zero_capacity (junk : nat -> byte) :
  insert_guard (mkvec 0 0 4 []) (mkint Int 0) = true
  /\ vec_insert (Some junk) (mkvec 0 0 4 []) item_10 (mkint Int 0)
     = Undefined (mkvec 0 1 4 []).
Proof. split; reflexivity. Qed.

(** ** Arguments that are not sizes *)

(** C10 at its failing input.  With [size] the [int] -1 both sides of
    [(size_t) size == size] are converted to [size_t] and agree, and
    [size > capacity] compares [SIZE_MAX] with the capacity; the macro asks
    [realloc] for [24 + SIZE_MAX * 4 mod 2^64 = 20] bytes.  Whatever the
    allocator answers, the call does not return the vec as it was.  The
    same argument in a type wider than [size_t] is turned down by the
    guard. *)
Theorem reserve_minus_one_is_not_ignored (r : reply) :
  vec_new (Some junk_aa) 4 = Done (mkvec 1 0 4 [x00; x00; x00; x00])
  /\ reserve_guard (mkvec 1 0 4 [x00; x00; x00; x00]) (mkint Int (-1)) = true
  /\ val (cast ULong (mkint Int (-1))) = SIZE_MAX
  /\ val (cast ULong (c_add (sz HDR) (c_mul (mkint Int (-1)) (sz 4)))) = 20
  /\ vec_reserve r (mkvec 1 0 4 [x00; x00; x00; x00]) (mkint Int (-1))
     = match r with
       | None => Killed (mkvec 1 0 4 [x00; x00; x00; x00])
       | Some _ => Undefined (mkvec 1 0 4 [x00; x00; x00; x00])
       end
  /\ vec_reserve r (mkvec 1 0 4 [x00; x00; x00; x00]) (mkint Int (-1))
     <> Done (mkvec 1 0 4 [x00; x00; x00; x00])
  /\ vec_reserve r (mkvec 1 0 4 [x00; x00; x00; x00]) (mkint Int128 (-1))
     = Done (mkvec 1 0 4 [x00; x00; x00; x00]).
Proof.
  repeat split; try reflexivity; destruct r; try reflexivity; discriminate.
Qed.

(** ** What [vec_push] and [vec_insert] do when there is room to grow *)

Lemma conv_fits (t : ctype) (z : Z) :
  (if signed t
   then - 2 ^ (bits t - 1) <= z < 2 ^ (bits t - 1)
   else 0 <= z < 2 ^ bits t) ->
  conv t z = z.
Proof. intros H. apply (proj2 (in_range_bounds (mkint t z))). exact H. Qed.

(** Removes the conversions of values that fit, innermost first. *)
Ltac conv_simpl :=
  repeat match goal with
    | |- context [conv ?t ?z] =>
        lazymatch z with
        | context [conv _ _] => fail
        | _ => rewrite (conv_fits t z) by (cbn [signed bits]; red_consts; lia)
        end
    end.

Lemma insert_offsets (index : cint) (len isz : Z) :
  in_range index -> no_overflow_succ index ->
  0 <= val index <= len -> 0 <= isz ->
  (len + 1) * isz <= SIZE_MAX -> len + 1 <= SIZE_MAX -> isz <= SIZE_MAX ->
  val (c_mul (c_add index (lit 1)) (sz isz)) = (val index + 1) * isz
  /\ val (c_mul index (sz isz)) = val index * isz
  /\ val (cast ULong (c_mul (sz isz) (c_sub (c_sub (sz (len + 1)) (lit 1)) index)))
     = isz * (len - val index).
Proof.
  intros Hr Hsucc Hi Hs Hfit Hl Hs'.
  apply in_range_bounds in Hr. apply in_range_bounds in Hsucc.
  destruct index as [t z]. cbn [ty val] in *.
  assert (0 <= z * isz) by nia.
  assert ((z + 1) * isz <= (len + 1) * isz) by nia.
  assert (0 <= (z + 1) * isz) by nia.
  assert (z * isz <= (z + 1) * isz) by nia.
  assert (0 <= isz * (len - z)) by nia.
  assert (isz * (len - z) <= (len + 1) * isz) by nia.
  assert (Hsub : len + 1 - 1 - z = len - z) by lia.
  unfold cast, c_add, c_sub, c_mul, c_arith, sz, lit. cbn [ty val].
  destruct t; cbn [signed bits] in *;
    red_arith; conv_simpl; rewrite ?Hsub; conv_simpl; repeat split; reflexivity.
Qed.

Lemma grown_cap_ge (c : Z) : 1 <= c -> c < grown_cap c.
Proof. unfold grown_cap. destruct (c <=? VEC_MAX_PREALLOC); lia. Qed.

Lemma grow_done (r : reply) (v : vec) :
  wf v -> can_grow r v ->
  exists w,
    grow r v = Done w
    /\ wf w
    /\ hdr_len w = hdr_len v
    /\ hdr_item_size w = hdr_item_size v
    /\ hdr_len w < hdr_cap w
    /\ hdr_cap w = (if hdr_len v =? hdr_cap v then grown_cap (hdr_cap v) else hdr_cap v)
    /\ (forall o k : nat,
          (o + k <= length (data v))%nat -> slice o k (data w) = slice o k (data v)).
Proof.
  intros Hwf Hroom. pose proof Hwf as (Hs & Hl & Hc & Hd & Ht).
  unfold grow. destruct (Z.eqb_spec (hdr_len v) (hdr_cap v)) as [Heq|Hne].
  - destruct (Hroom Heq) as ([junk ->] & H1 & Hg & Hfit).
    pose proof (grown_cap_ge _ H1) as Hlt.
    assert (Hnew : new_cap v = grown_cap (hdr_cap v)).
    { unfold new_cap, grown_cap in *.
      destruct (hdr_cap v <=? VEC_MAX_PREALLOC); apply size_t_id; lia. }
    rewrite Hnew.
    assert (hdr_cap v * hdr_item_size v
            <= grown_cap (hdr_cap v) * hdr_item_size v) by nia.
    rewrite (size_t_id (_ * _)) by (red_consts; lia).
    rewrite size_t_id by (red_consts; lia).
    unfold reallocate. rewrite (proj2 (Z.ltb_ge _ _)) by lia.
    cbn [mbind outcome_bind].
    eexists. split; [reflexivity|]. unfold wf.
    cbn [hdr_len hdr_cap hdr_item_size data with_cap with_data].
    replace (HDR + grown_cap (hdr_cap v) * hdr_item_size v - HDR)
      with (grown_cap (hdr_cap v) * hdr_item_size v) by lia.
    repeat split; try lia.
    + rewrite length_resize_block. lia.
    + intros o k Hok. apply slice_resize_block; lia.
  - exists v. repeat split; try lia; try assumption.
Qed.

Lemma vec_push_appends (r : reply) (v : vec) (item : list byte) :
  wf v -> sizeof item = hdr_item_size v -> can_grow r v ->
  exists v',
    vec_push r v item = Done v'
    /\ wf v'
    /\ hdr_len v' = hdr_len v + 1
    /\ hdr_item_size v' = hdr_item_size v
    /\ hdr_cap v' = (if hdr_len v =? hdr_cap v then grown_cap (hdr_cap v) else hdr_cap v)
    /\ element v' (hdr_len v) = item
    /\ (forall j, 0 <= j < hdr_len v -> element v' j = element v j).
Proof.
  intros Hwf Hsz Hroom. pose proof Hwf as (Hs & Hl & Hc & Hd & Ht).
  destruct (grow_done r v Hwf Hroom)
    as (w & Hgrow & Hwfw & Hlw & Hsw & Hltw & Hcw & Hkeep).
  destruct Hwfw as (Hs1 & Hl1 & Hc1 & Hd1 & Ht1).
  unfold vec_push. rewrite Hgrow. cbn [mbind outcome_bind].
  cbn [hdr_len hdr_cap hdr_item_size data with_len with_data].
  rewrite Hlw.
  rewrite (size_t_id (hdr_len v + 1)) by lia.
  replace (hdr_len v + 1 - 1) with (hdr_len v) by lia.
  rewrite (size_t_id (hdr_len v)) by lia.
  rewrite Hsz.
  assert (0 <= hdr_len v * hdr_item_size v) by nia.
  assert (hdr_len v * hdr_item_size v + hdr_item_size v
          <= hdr_cap w * hdr_item_size w) by (rewrite Hsw; nia).
  assert (hdr_len v * hdr_item_size v <= hdr_cap v * hdr_item_size v) by nia.
  rewrite store_Some by lia.
  eexists. split; [reflexivity|]. unfold wf.
  cbn [hdr_len hdr_cap hdr_item_size data with_len with_data].
  unfold sizeof in *.
  repeat split; try lia.
  - rewrite !length_app, length_take, length_drop. lia.
  - rewrite element_slice.
    cbn [hdr_len hdr_cap hdr_item_size data with_len with_data].
    rewrite Hsw.
    rewrite slice_app_r by (rewrite length_take; lia).
    rewrite slice_app_l by (rewrite length_take; lia).
    replace (Z.to_nat (hdr_item_size v)) with (length item) by lia.
    rewrite length_take.
    replace (_ - _)%nat with 0%nat by lia.
    apply slice_whole.
  - intros j Hj. rewrite !element_slice.
    cbn [hdr_len hdr_cap hdr_item_size data with_len with_data].
    rewrite Hsw.
    assert (0 <= j * hdr_item_size v) by nia.
    assert (j * hdr_item_size v + hdr_item_size v
            <= hdr_len v * hdr_item_size v) by nia.
    rewrite slice_app_l by (rewrite length_take; lia).
    rewrite slice_take by lia.
    apply Hkeep. lia.
Qed.

Lemma vec_insert_shifts_right (r : reply) (v : vec) (item : list byte) (index : cint) :
  wf v -> sizeof item = hdr_item_size v ->
  in_range index -> no_overflow_succ index ->
  0 <= val index <= hdr_len v -> can_grow r v ->
  exists v',
    vec_insert r v item index = Done v'
    /\ wf v'
    /\ hdr_len v' = hdr_len v + 1
    /\ hdr_item_size v' = hdr_item_size v
    /\ hdr_cap v' = (if hdr_len v =? hdr_cap v then grown_cap (hdr_cap v) else hdr_cap v)
    /\ element v' (val index) = item
    /\ (forall j, 0 <= j < val index -> element v' j = element v j)
    /\ (forall j, val index <= j < hdr_len v -> element v' (j + 1) = element v j).
Proof.
  intros Hwf Hsz Hr Hsucc Hi Hroom. pose proof Hwf as (Hs & Hl & Hc & Hd & Ht).
  destruct (grow_done r v Hwf Hroom)
    as (w & Hgrow & Hwfw & Hlw & Hsw & Hltw & Hcw & Hkeep).
  destruct Hwfw as (Hs1 & Hl1 & Hc1 & Hd1 & Ht1).
  unfold vec_insert.
  rewrite insert_guard_spec by (assumption || lia).
  rewrite !(proj2 (Z.leb_le _ _)) by lia. cbn [andb].
  rewrite Hgrow. cbn [mbind outcome_bind].
  cbn [hdr_len hdr_cap hdr_item_size data with_len with_data].
  rewrite Hlw, Hsw in *.
  rewrite (size_t_id (hdr_len v + 1)) by lia.
  set (i := val index) in *. set (s := hdr_item_size v) in *.
  set (d := data w) in *.
  assert (Hlen1 : (hdr_len v + 1) * s <= hdr_cap w * s) by nia.
  destruct (insert_offsets index (hdr_len v) s) as (E1 & E2 & E3);
    try assumption; try (red_consts; lia).
  fold i in E1, E2, E3. rewrite E1, E2, E3. rewrite Hsz.
  assert (0 <= i * s) by nia.
  assert (Hsucc_s : (i + 1) * s = i * s + s) by lia.
  assert (0 <= s * (hdr_len v - i)) by nia.
  assert (Hend : (i + 1) * s + s * (hdr_len v - i) = (hdr_len v + 1) * s) by lia.
  assert (hdr_len v * s <= hdr_cap v * s) by nia.
  rewrite memmove_Some by lia.
  set (d1 := take _ d ++ take _ (drop _ d) ++ drop _ d).
  assert (Hd1len : length d1 = length d).
  { subst d1. rewrite !length_app, !length_take, !length_drop. lia. }
  rewrite store_Some by lia.
  eexists. split; [reflexivity|]. unfold wf.
  cbn [hdr_len hdr_cap hdr_item_size data with_len with_data].
  unfold sizeof in *. rewrite ?Hsw, ?Hlw. fold s.
  repeat split; try lia.
  - rewrite !length_app, length_take, length_drop. lia.
  - rewrite element_slice.
    cbn [hdr_len hdr_cap hdr_item_size data with_len with_data].
    rewrite ?Hsw, ?Hlw. fold s.
    rewrite slice_app_r by (rewrite length_take; lia).
    rewrite slice_app_l by (rewrite length_take; lia).
    replace (Z.to_nat s) with (length item) by lia.
    rewrite length_take.
    replace (_ - _)%nat with 0%nat by lia.
    apply slice_whole.
  - intros j Hj. rewrite !element_slice.
    cbn [hdr_len hdr_cap hdr_item_size data with_len with_data].
    rewrite ?Hsw, ?Hlw. fold s.
    assert (0 <= j * s) by nia.
    assert (j * s + s <= i * s) by nia.
    rewrite slice_app_l by (rewrite length_take; lia).
    rewrite slice_take by lia.
    subst d1.
    rewrite slice_app_l by (rewrite length_take; lia).
    rewrite slice_take by lia.
    apply Hkeep. lia.
  - intros j Hj. rewrite !element_slice.
    cbn [hdr_len hdr_cap hdr_item_size data with_len with_data].
    rewrite ?Hsw, ?Hlw. fold s.
    assert (0 <= j * s) by nia.
    assert (Hj1 : (j + 1) * s = j * s + s) by lia.
    assert (i * s <= j * s) by nia.
    assert (j * s + s <= hdr_len v * s) by nia.
    rewrite slice_app_r by (rewrite length_take; lia).
    rewrite length_take.
    rewrite slice_app_r by lia.
    rewrite slice_drop.
    replace (_ + _)%nat with (Z.to_nat ((j + 1) * s)) by lia.
    subst d1.
    rewrite slice_app_r by (rewrite length_take; lia).
    rewrite slice_app_l by (rewrite !length_take, length_drop; lia).
    rewrite slice_take by (rewrite length_take; lia).
    rewrite slice_drop, length_take.
    replace (_ + _)%nat with (Z.to_nat (j * s)) by lia.
    apply Hkeep. lia.
Qed.

(** ** Growth *)

(** On a full vec a null answer of the allocator ends [vec_push], and
    [vec_insert] at an index that passes the guard, before anything is
    returned. *)
Lemma full_vec_needs_memory (v : vec) (item : list byte) (index : cint) :
  hdr_len v = hdr_cap v ->
  (forall v', vec_push None v item <> Done v')
  /\ (insert_guard v index = true ->
      forall v', vec_insert None v item index <> Done v').
Proof.
  intros Hfull. split.
  - intros v'. unfold vec_push, grow.
    rewrite (proj2 (Z.eqb_eq _ _)) by assumption. discriminate.
  - intros Hg v'. unfold vec_insert, grow. rewrite Hg.
    rewrite (proj2 (Z.eqb_eq _ _)) by assumption. discriminate.
Qed.

(** C1. On a well-formed full vec of capacity at least one, with memory
    granted and a grown block whose byte size is a [size_t], [vec_push]
    returns, and so does [vec_insert] at every index from 0 to the length,
    and the capacity of the vec that comes back is twice the old one if
    that was at most [VEC_MAX_PREALLOC], which is [1024 * 1024], and the
    old one plus one otherwise.  No answer of the allocator makes either
    call return with another capacity. *)
Theorem growth_policy
    (junk : nat -> byte) (v : vec) (item : list byte) (index : cint) :
  wf v -> hdr_len v = hdr_cap v -> 1 <= hdr_cap v < SIZE_MAX ->
  sizeof item = hdr_item_size v ->
  in_range index -> no_overflow_succ index -> 0 <= val index <= hdr_len v ->
  HDR + (if hdr_cap v <=? VEC_MAX_PREALLOC then hdr_cap v * 2 else hdr_cap v + 1)
        * hdr_item_size v <= SIZE_MAX ->
  VEC_MAX_PREALLOC = 1024 * 1024
  /\ (exists v1,
        vec_push (Some junk) v item = Done v1
        /\ hdr_cap v1 = (if hdr_cap v <=? VEC_MAX_PREALLOC
                         then hdr_cap v * 2 else hdr_cap v + 1))
  /\ (exists v2,
        vec_insert (Some junk) v item index = Done v2
        /\ hdr_cap v2 = (if hdr_cap v <=? VEC_MAX_PREALLOC
                         then hdr_cap v * 2 else hdr_cap v + 1))
  /\ (forall r v',
        vec_push r v item = Done v' \/ vec_insert r v item index = Done v' ->
        hdr_cap v' = (if hdr_cap v <=? VEC_MAX_PREALLOC
                      then hdr_cap v * 2 else hdr_cap v + 1)).
Proof.
  intros Hwf Hfull Hc Hsz Hr Hsucc Hi Hfit.
  fold (grown_cap (hdr_cap v)) in *.
  assert (Hroom : forall j, can_grow (Some j) v).
  { intros j _. split; [eexists; reflexivity|]. split; [lia|].
    split; [|assumption].
    unfold grown_cap. destruct (hdr_cap v <=? VEC_MAX_PREALLOC) eqn:E;
      [apply Z.leb_le in E; red_consts; lia | lia]. }
  assert (Hpush : forall j, exists v1,
             vec_push (Some j) v item = Done v1
             /\ hdr_cap v1 = grown_cap (hdr_cap v)).
  { intros j.
    destruct (vec_push_appends (Some j) v item Hwf Hsz (Hroom j))
      as (v1 & Hrun & _ & _ & _ & Hcap & _).
    rewrite (proj2 (Z.eqb_eq _ _)) in Hcap by assumption. eauto. }
  assert (Hins : forall j, exists v2,
             vec_insert (Some j) v item index = Done v2
             /\ hdr_cap v2 = grown_cap (hdr_cap v)).
  { intros j.
    destruct (vec_insert_shifts_right (Some j) v item index Hwf Hsz Hr Hsucc Hi
                (Hroom j))
      as (v2 & Hrun & _ & _ & _ & Hcap & _).
    rewrite (proj2 (Z.eqb_eq _ _)) in Hcap by assumption. eauto. }
  split; [reflexivity|]. split; [apply Hpush|]. split; [apply Hins|].
  intros r v' Hrun.
  destruct (full_vec_needs_memory v item index Hfull) as (Hnp & Hni).
  assert (Hg : insert_guard v index = true).
  { destruct Hwf as (_ & Hl & Hcap & _).
    rewrite insert_guard_spec by (assumption || lia).
    rewrite !(proj2 (Z.leb_le _ _)) by lia. reflexivity. }
  destruct r as [j|].
  - destruct (Hpush j) as (v1 & Hrun1 & Hcap1).
    destruct (Hins j) as (v2 & Hrun2 & Hcap2).
    destruct Hrun as [Hrun|Hrun].
    + rewrite Hrun1 in Hrun. injection Hrun as <-. exact Hcap1.
    + rewrite Hrun2 in Hrun. injection Hrun as <-. exact Hcap2.
  - destruct Hrun as [Hrun|Hrun].
    + destruct (Hnp v' Hrun).
    + destruct (Hni Hg v' Hrun).
Qed.

Lemma growth_policy_witness :
  wf (mkvec 2 2 1 bytes_ab) /\ 2 = 2 /\ 1 <= 2 < SIZE_MAX
  /\ sizeof [x63] = 1
  /\ in_range (mkint Int 1) /\ no_overflow_succ (mkint Int 1) /\ 0 <= 1 <= 2
  /\ HDR + (if 2 <=? VEC_MAX_PREALLOC then 2 * 2 else 2 + 1) * 1 <= SIZE_MAX
  /\ VEC_MAX_PREALLOC = 1024 * 1024
  /\ (exists v1,
        vec_push (Some junk_aa) (mkvec 2 2 1 bytes_ab) [x63] = Done v1
        /\ hdr_cap v1 = (if 2 <=? VEC_MAX_PREALLOC then 2 * 2 else 2 + 1))
  /\ (exists v2,
        vec_insert (Some junk_aa) (mkvec 2 2 1 bytes_ab) [x63] (mkint Int 1) = Done v2
        /\ hdr_cap v2 = (if 2 <=? VEC_MAX_PREALLOC then 2 * 2 else 2 + 1))
  /\ (forall r v',
        vec_push r (mkvec 2 2 1 bytes_ab) [x63] = Done v'
        \/ vec_insert r (mkvec 2 2 1 bytes_ab) [x63] (mkint Int 1) = Done v' ->
        hdr_cap v' = (if 2 <=? VEC_MAX_PREALLOC then 2 * 2 else 2 + 1)).
Proof.
  assert (Hwf : wf (mkvec 2 2 1 bytes_ab)) by (unfold wf; cbn; red_consts; lia).
  assert (Hc : 1 <= 2 < SIZE_MAX) by (red_consts; lia).
  assert (Hfit : HDR + (if 2 <=? VEC_MAX_PREALLOC then 2 * 2 else 2 + 1) * 1
                 <= SIZE_MAX) by (vm_compute; discriminate).
  split; [exact Hwf|]. split; [reflexivity|]. split; [exact Hc|].
  split; [reflexivity|]. split; [reflexivity|]. split; [reflexivity|].
  split; [lia|]. split; [exact Hfit|].
  exact (growth_policy junk_aa (mkvec 2 2 1 bytes_ab) [x63] (mkint Int 1)
           Hwf eq_refl Hc eq_refl eq_refl eq_refl ltac:(cbn; lia) Hfit).
Defined.

(** ** Construction and the invariant *)

Lemma vec_newlen_done (junk : nat -> byte) (size nitems : Z) :
  0 <= size <= SIZE_MAX -> 0 <= nitems <= SIZE_MAX ->
  HDR + size * nitems <= SIZE_MAX ->
  exists v,
    vec_newlen (Some junk) size nitems = Done v
    /\ wf v
    /\ hdr_cap v = nitems /\ hdr_len v = 0 /\ hdr_item_size v = size
    /\ data v = replicate (Z.to_nat (size * nitems)) x00.
Proof.
  intros Hs Hn Hfit. unfold vec_newlen.
  assert (0 <= size * nitems) by nia.
  rewrite (size_t_id (size * nitems)) by (red_consts; lia).
  rewrite size_t_id by (red_consts; lia).
  rewrite (proj2 (Z.ltb_ge _ _)) by lia.
  replace (HDR + size * nitems - HDR) with (size * nitems) by lia.
  unfold memset0. rewrite length_fresh.
  rewrite !(proj2 (Z.leb_le _ _)) by lia. cbn [andb].
  rewrite drop_ge by (rewrite length_fresh; lia). rewrite app_nil_r.
  eexists. split; [reflexivity|]. unfold wf.
  cbn [hdr_len hdr_cap hdr_item_size data].
  rewrite length_replicate. repeat split; lia.
Qed.

(** From a capacity of at least one, appends count the length and keep it
    within the capacity, as long as twice the final length and the
    capacity at the start stay within a bound [K] whose block size is a
    [size_t]. *)
Lemma vec_push_all_counts (junk : nat -> byte) (K : Z) (items : list (list byte)) :
  forall v : vec,
    wf v -> 1 <= hdr_cap v <= K ->
    K <= SIZE_MAX -> HDR + K * hdr_item_size v <= SIZE_MAX ->
    2 * (hdr_len v + Z.of_nat (length items)) <= K ->
    Forall (fun item => sizeof item = hdr_item_size v) items ->
    exists v',
      vec_push_all junk v items = Done v'
      /\ wf v'
      /\ hdr_len v' = hdr_len v + Z.of_nat (length items)
      /\ hdr_len v' <= hdr_cap v'
      /\ hdr_item_size v' = hdr_item_size v.
Proof.
  induction items as [|item rest IH]; intros v Hwf Hc HK Hfit Hlen Hitems.
  - exists v. cbn [vec_push_all length]. destruct Hwf as (? & ? & ?).
    repeat split; try assumption; lia.
  - inversion Hitems as [|? ? Hitem Hrest]; subst.
    cbn [length] in Hlen.
    pose proof Hwf as (Hs & Hl & Hc' & Hd & Ht).
    assert (Hroom : can_grow (Some junk) v).
    { intros Hfull. split; [eexists; reflexivity|]. split; [lia|].
      assert (grown_cap (hdr_cap v) <= K).
      { unfold grown_cap. destruct (hdr_cap v <=? VEC_MAX_PREALLOC); lia. }
      split; [lia | nia]. }
    destruct (vec_push_appends (Some junk) v item Hwf Hitem Hroom)
      as (v1 & Hpush & Hwf1 & Hl1 & Hs1 & Hc1 & _ & _).
    assert (Hcap1 : 1 <= hdr_cap v1 <= K).
    { rewrite Hc1. destruct (hdr_len v =? hdr_cap v) eqn:E; [|lia].
      apply Z.eqb_eq in E. unfold grown_cap.
      destruct (hdr_cap v <=? VEC_MAX_PREALLOC); lia. }
    destruct (IH v1 Hwf1 Hcap1 HK) as (v' & Hall & Hwf' & Hl' & Hle' & Hs').
    + rewrite Hs1. assumption.
    + rewrite Hl1. lia.
    + rewrite Hs1. assumption.
    + exists v'. cbn [vec_push_all]. rewrite Hpush. cbn [mbind outcome_bind].
      split; [exact Hall|]. split; [assumption|].
      split; [cbn [length]; lia|]. split; [assumption | congruence].
Qed.


(** A copy of a well-formed vec has the same header and the same bytes. *)
Lemma vec_dup_copies (junk : nat -> byte) (v : vec) :
  wf v -> vec_dup (Some junk) v = Done v.
Proof.
  intros (Hs & Hl & Hc & Hd & Ht). unfold vec_dup, vec_total_size.
  assert (0 <= hdr_cap v * hdr_item_size v) by nia.
  rewrite (size_t_id (_ * _)) by (red_consts; lia).
  rewrite size_t_id by (red_consts; lia).
  rewrite (proj2 (Z.ltb_ge _ _)) by lia.
  replace (HDR + hdr_cap v * hdr_item_size v - HDR)
    with (hdr_cap v * hdr_item_size v) by lia.
  unfold memcpy. rewrite length_fresh.
  rewrite !(proj2 (Z.leb_le _ _)) by lia. cbn [andb].
  rewrite drop_ge by (rewrite length_fresh; lia).
  rewrite app_nil_r, take_ge by lia.
  destruct v; reflexivity.
Qed.

(** The scenario of the spec: five appends to a vec of capacity 1 double
    it to 2, 4 and 8; removing index 1 leaves 10, 30, 40, 50; shrinking
    brings the capacity to 4. *)
Lemma five_appends_remove_shrink :
  exists v0 v5 v4 v,
    vec_newlen (Some junk_aa) 4 1 = Done v0
    /\ vec_push_all junk_aa v0 items_10_50 = Done v5
    /\ hdr_len v5 = 5 /\ hdr_cap v5 = 8
    /\ map (element v5) [0; 1; 2; 3; 4] = items_10_50
    /\ vec_remove v5 1 = Done v4
    /\ hdr_len v4 = 4
    /\ map (element v4) [0; 1; 2; 3]
       = [item_10; [x1e; x00; x00; x00]; [x28; x00; x00; x00]; [x32; x00; x00; x00]]
    /\ vec_shrink (Some junk_aa) v4 = Done v
    /\ hdr_cap v = 4 /\ hdr_len v = 4.
Proof.
  do 4 eexists.
  split; [vm_compute; reflexivity|].
  split; [vm_compute; reflexivity|].
  split; [reflexivity|]. split; [reflexivity|].
  split; [vm_compute; reflexivity|].
  split; [vm_compute; reflexivity|].
  split; [reflexivity|].
  split; [vm_compute; reflexivity|].
  split; [vm_compute; reflexivity|].
  split; reflexivity.
Qed.

(** * The vec as a sequence of items *)

Lemma length_contents (v : vec) : length (contents v) = Z.to_nat (hdr_len v).
Proof. unfold contents. rewrite length_fmap. apply length_seqZ. Qed.

Lemma contents_lookup (v : vec) (k : nat) :
  Z.of_nat k < hdr_len v -> contents v !! k = Some (element v (Z.of_nat k)).
Proof.
  intros H. unfold contents.
  rewrite list_lookup_fmap, lookup_seqZ_lt by assumption. reflexivity.
Qed.

(** A vec holds the list [L] when its length is that of [L] and each of
    its items is the item of [L] at the same place. *)
Lemma contents_eq (v : vec) (L : list (list byte)) :
  Z.of_nat (length L) = hdr_len v ->
  (forall k x, L !! k = Some x -> element v (Z.of_nat k) = x) ->
  contents v = L.
Proof.
  intros Hlen Hel. apply list_eq. intros k.
  destruct (decide (k < length L)%nat) as [Hk|Hk].
  - destruct (lookup_lt_is_Some_2 L k Hk) as [x Hx].
    rewrite Hx, contents_lookup by lia. f_equal. apply Hel. assumption.
  - rewrite (lookup_ge_None_2 L) by lia.
    apply lookup_ge_None_2. rewrite length_contents. lia.
Qed.

(** Two vecs of one length whose items agree hold the same list. *)
Lemma contents_ext (v v' : vec) :
  0 <= hdr_len v -> hdr_len v' = hdr_len v ->
  (forall j, 0 <= j < hdr_len v -> element v' j = element v j) ->
  contents v' = contents v.
Proof.
  intros H0 Hlen Hel. apply contents_eq.
  - rewrite length_contents. lia.
  - intros k x Hx.
    assert (Hk : Z.of_nat k < hdr_len v).
    { apply lookup_lt_Some in Hx. rewrite length_contents in Hx. lia. }
    rewrite contents_lookup in Hx by assumption.
    injection Hx as <-. apply Hel. lia.
Qed.

(** How the list changes when one item is added at the end, added in the
    middle, or taken out. *)
Lemma contents_snoc (v v' : vec) (item : list byte) :
  0 <= hdr_len v -> hdr_len v' = hdr_len v + 1 ->
  element v' (hdr_len v) = item ->
  (forall j, 0 <= j < hdr_len v -> element v' j = element v j) ->
  contents v' = contents v ++ [item].
Proof.
  intros Hlen Hl Hlast Hold. apply contents_eq.
  - rewrite length_app, length_contents. cbn [length]. lia.
  - intros k x Hx.
    destruct (decide (Z.of_nat k < hdr_len v)) as [Hk|Hk].
    + rewrite lookup_app_l in Hx by (rewrite length_contents; lia).
      rewrite contents_lookup in Hx by assumption.
      injection Hx as <-. apply Hold. lia.
    + rewrite lookup_app_r in Hx by (rewrite length_contents; lia).
      rewrite length_contents in Hx.
      apply list_lookup_singleton_Some in Hx as [Hk0 <-].
      replace (Z.of_nat k) with (hdr_len v) by lia. exact Hlast.
Qed.


Lemma contents_delete (v v' : vec) (i : Z) :
  0 <= i < hdr_len v -> hdr_len v' = hdr_len v - 1 ->
  (forall j, 0 <= j < i -> element v' j = element v j) ->
  (forall j, i <= j < hdr_len v - 1 -> element v' j = element v (j + 1)) ->
  contents v'
  = take (Z.to_nat i) (contents v) ++ drop (S (Z.to_nat i)) (contents v).
Proof.
  intros Hi Hl Hlow Hhigh. apply contents_eq.
  - rewrite length_app, length_take, length_drop, length_contents. lia.
  - intros k x Hx.
    assert (Hlt : (length (take (Z.to_nat i) (contents v)) = Z.to_nat i)%nat)
      by (rewrite length_take, length_contents; lia).
    destruct (decide (Z.of_nat k < i)) as [Hk|Hk].
    + rewrite lookup_app_l in Hx by lia.
      rewrite lookup_take_lt in Hx by lia.
      rewrite contents_lookup in Hx by lia.
      injection Hx as <-. apply Hlow. lia.
    + rewrite lookup_app_r in Hx by lia. rewrite Hlt in Hx.
      rewrite lookup_drop in Hx.
      assert (Hk1 : Z.of_nat (S (Z.to_nat i) + (k - Z.to_nat i)) < hdr_len v).
      { apply lookup_lt_Some in Hx. rewrite length_contents in Hx. lia. }
      rewrite contents_lookup in Hx by assumption.
      injection Hx as <-.
      rewrite (Hhigh (Z.of_nat k)) by lia. f_equal. lia.
Qed.

(** ** Appending *)

(** A push on a vec that is not full runs the same for every answer of
    the allocator. *)
Lemma vec_push_room (r r' : reply) (v : vec) (item : list byte) :
  hdr_len v <> hdr_cap v -> vec_push r v item = vec_push r' v item.
Proof.
  intros Hne. unfold vec_push, grow.
  rewrite (proj2 (Z.eqb_neq _ _)) by assumption. reflexivity.
Qed.

Lemma can_grow_room (r : reply) (v : vec) : hdr_len v <> hdr_cap v -> can_grow r v.
Proof. intros Hne Heq. contradiction. Qed.

(** X1. [vec_push] on a well-formed vec that has room, or can grow,
    returns a well-formed vec that holds the old items followed by the
    new one; its length is one more and it is not empty. *)
Theorem vec_push_appends_to_contents (r : reply) (v : vec) (item : list byte) :
  wf v -> sizeof item = hdr_item_size v -> can_grow r v ->
  exists v',
    vec_push r v item = Done v'
    /\ wf v'
    /\ contents v' = contents v ++ [item]
    /\ vec_len v' = vec_len v + 1
    /\ vec_isempty v' = false.
Proof.
  intros Hwf Hsz Hroom.
  destruct (vec_push_appends r v item Hwf Hsz Hroom)
    as (v' & Hrun & Hwf' & Hl & Hs & Hc & Hlast & Hold).
  destruct Hwf as (_ & Hlen & _).
  exists v'. split; [exact Hrun|]. split; [exact Hwf'|].
  split; [|split].
  - apply contents_snoc; [lia | assumption | assumption | assumption].
  - unfold vec_len. exact Hl.
  - unfold vec_isempty. rewrite Hl.
    rewrite (proj2 (Z.eqb_neq _ _)) by lia. reflexivity.
Qed.

Lemma vec_push_appends_to_contents_witness :
  wf (mkvec 2 2 1 bytes_ab) /\ sizeof [x63] = 1
  /\ can_grow (Some junk_aa) (mkvec 2 2 1 bytes_ab)
  /\ exists v',
       vec_push (Some junk_aa) (mkvec 2 2 1 bytes_ab) [x63] = Done v'
       /\ wf v'
       /\ contents v' = contents (mkvec 2 2 1 bytes_ab) ++ [[x63]]
       /\ vec_len v' = 2 + 1
       /\ vec_isempty v' = false.
Proof.
  assert (Hwf : wf (mkvec 2 2 1 bytes_ab)) by (unfold wf; cbn; red_consts; lia).
  assert (Hroom : can_grow (Some junk_aa) (mkvec 2 2 1 bytes_ab)).
  { intros _. split; [eexists; reflexivity|]. repeat split; vm_compute; easy. }
  split; [exact Hwf|]. split; [reflexivity|]. split; [exact Hroom|].
  exact (vec_push_appends_to_contents (Some junk_aa) (mkvec 2 2 1 bytes_ab) [x63]
           Hwf eq_refl Hroom).
Defined.

(** X2. On a well-formed vec with room for one more item [vec_push] does
    not reallocate: it returns also when the allocator would answer with
    the null pointer, and capacity and block size stay as they were. *)
Theorem vec_push_with_room_keeps_block (v : vec) (item : list byte) :
  wf v -> sizeof item = hdr_item_size v -> hdr_len v < hdr_cap v ->
  exists v',
    (forall r, vec_push r v item = Done v')
    /\ hdr_cap v' = hdr_cap v
    /\ length (data v') = length (data v)
    /\ contents v' = contents v ++ [item].
Proof.
  intros Hwf Hsz Hlt.
  assert (Hne : hdr_len v <> hdr_cap v) by lia.
  destruct (vec_push_appends None v item Hwf Hsz (can_grow_room None v Hne))
    as (v' & Hrun & Hwf' & Hl & Hs & Hc & Hlast & Hold).
  exists v'. split; [|split; [|split]].
  - intros r. rewrite (vec_push_room r None) by assumption. exact Hrun.
  - rewrite Hc. rewrite (proj2 (Z.eqb_neq _ _)) by assumption. reflexivity.
  - destruct Hwf as (_ & _ & _ & Hd & _). destruct Hwf' as (_ & _ & _ & Hd' & _).
    rewrite Hc, Hs in Hd'.
    rewrite (proj2 (Z.eqb_neq _ _)) in Hd' by assumption. lia.
  - destruct Hwf as (_ & Hlen & _).
    apply contents_snoc; [lia | assumption | assumption | assumption].
Qed.

Lemma vec_push_with_room_keeps_block_witness :
  wf (mkvec 2 1 1 bytes_ab) /\ sizeof [x63] = 1 /\ 1 < 2
  /\ exists v',
       (forall r, vec_push r (mkvec 2 1 1 bytes_ab) [x63] = Done v')
       /\ hdr_cap v' = 2
       /\ length (data v') = length bytes_ab
       /\ contents v' = contents (mkvec 2 1 1 bytes_ab) ++ [[x63]].
Proof.
  assert (Hwf : wf (mkvec 2 1 1 bytes_ab)) by (unfold wf; cbn; red_consts; lia).
  split; [exact Hwf|]. split; [reflexivity|]. split; [lia|].
  apply (vec_push_with_room_keeps_block (mkvec 2 1 1 bytes_ab) [x63] Hwf eq_refl).
  cbn. lia.
Defined.

(** ** Inserting and removing *)






(** X5. [vec_remove] of the last index of a well-formed vec is [vec_pop]:
    no byte of the block changes and the length goes down by one. *)
Theorem vec_remove_last_is_pop (v : vec) :
  wf v -> 0 < hdr_len v ->
  vec_remove v (hdr_len v - 1) = Done (vec_pop v)
  /\ data (vec_pop v) = data v
  /\ hdr_len (vec_pop v) = hdr_len v - 1.
Proof.
  intros Hwf Hpos. pose proof Hwf as (Hs & Hl & Hc & Hd & Ht).
  assert (Hpop : vec_pop v = with_len v (hdr_len v - 1)).
  { unfold vec_pop. rewrite (proj2 (Z.ltb_lt _ _)) by assumption.
    rewrite size_t_id by lia. reflexivity. }
  rewrite Hpop. split; [|split; reflexivity].
  rewrite vec_remove_done by (assumption || lia).
  replace (hdr_len v - (hdr_len v - 1 + 1)) with 0 by lia.
  rewrite Z.mul_0_r, Z.add_0_r. change (Z.to_nat 0) with 0%nat.
  rewrite take_0. cbn [app]. rewrite take_drop. destruct v; reflexivity.
Qed.

Lemma vec_remove_last_is_pop_witness :
  wf (mkvec 2 2 1 bytes_ab) /\ 0 < 2
  /\ vec_remove (mkvec 2 2 1 bytes_ab) (2 - 1) = Done (vec_pop (mkvec 2 2 1 bytes_ab))
  /\ data (vec_pop (mkvec 2 2 1 bytes_ab)) = bytes_ab
  /\ hdr_len (vec_pop (mkvec 2 2 1 bytes_ab)) = 2 - 1.
Proof.
  assert (Hwf : wf (mkvec 2 2 1 bytes_ab)) by (unfold wf; cbn; red_consts; lia).
  split; [exact Hwf|]. split; [lia|].
  apply (vec_remove_last_is_pop (mkvec 2 2 1 bytes_ab) Hwf). cbn. lia.
Defined.

(** ** Round trips *)



(** X7. Pushing an item and then popping gives back the items and the
    length the vec had; the popped item is not erased, its bytes stay in
    the slot behind the last item. *)
Theorem vec_push_then_pop (r : reply) (v : vec) (item : list byte) :
  wf v -> sizeof item = hdr_item_size v -> can_grow r v ->
  exists v1,
    vec_push r v item = Done v1
    /\ contents (vec_pop v1) = contents v
    /\ hdr_len (vec_pop v1) = hdr_len v
    /\ hdr_cap (vec_pop v1) = hdr_cap v1
    /\ element (vec_pop v1) (hdr_len v) = item.
Proof.
  intros Hwf Hsz Hroom.
  destruct (vec_push_appends r v item Hwf Hsz Hroom)
    as (v1 & Hrun & Hwf1 & Hl & Hs & Hc & Hlast & Hold).
  pose proof Hwf as (_ & Hlen & Hcap & _).
  assert (Hpop : vec_pop v1 = with_len v1 (hdr_len v)).
  { unfold vec_pop. rewrite (proj2 (Z.ltb_lt _ _)) by lia.
    rewrite Hl. replace (hdr_len v + 1 - 1) with (hdr_len v) by lia.
    rewrite size_t_id by lia. reflexivity. }
  exists v1. split; [exact Hrun|]. rewrite Hpop.
  split; [|split; [reflexivity | split; [reflexivity | exact Hlast]]].
  apply contents_ext; [lia | reflexivity |].
  intros j Hj. apply (Hold j Hj).
Qed.

Lemma vec_push_then_pop_witness :
  wf (mkvec 2 2 1 bytes_ab) /\ sizeof [x63] = 1
  /\ can_grow (Some junk_aa) (mkvec 2 2 1 bytes_ab)
  /\ exists v1,
       vec_push (Some junk_aa) (mkvec 2 2 1 bytes_ab) [x63] = Done v1
       /\ contents (vec_pop v1) = contents (mkvec 2 2 1 bytes_ab)
       /\ hdr_len (vec_pop v1) = 2
       /\ hdr_cap (vec_pop v1) = hdr_cap v1
       /\ element (vec_pop v1) 2 = [x63].
Proof.
  assert (Hwf : wf (mkvec 2 2 1 bytes_ab)) by (unfold wf; cbn; red_consts; lia).
  assert (Hroom : can_grow (Some junk_aa) (mkvec 2 2 1 bytes_ab)).
  { intros _. split; [eexists; reflexivity|]. repeat split; vm_compute; easy. }
  split; [exact Hwf|]. split; [reflexivity|]. split; [exact Hroom|].
  exact (vec_push_then_pop (Some junk_aa) (mkvec 2 2 1 bytes_ab) [x63]
           Hwf eq_refl Hroom).
Defined.

(** ** Popping and clearing *)

(** X8. [vec_pop] on a well-formed vec drops the last item from the list
    of items (an empty list stays empty) and touches neither the capacity
    nor any byte of the block. *)
Theorem vec_pop_drops_last (v : vec) :
  wf v ->
  contents (vec_pop v) = take (Z.to_nat (hdr_len v - 1)) (contents v)
  /\ hdr_cap (vec_pop v) = hdr_cap v
  /\ data (vec_pop v) = data v
  /\ wf (vec_pop v).
Proof.
  intros Hwf. pose proof Hwf as (Hs & Hl & Hc & Hd & Ht).
  unfold vec_pop. destruct (Z.ltb_spec 0 (hdr_len v)) as [Hpos|Hzero].
  - rewrite size_t_id by lia.
    split; [|split; [reflexivity | split; [reflexivity|]]].
    + apply contents_eq.
      * rewrite length_take, length_contents.
        cbn [hdr_len with_len]. lia.
      * intros k x Hx.
        assert (Hk : (k < Z.to_nat (hdr_len v - 1))%nat).
        { apply lookup_lt_Some in Hx. rewrite length_take in Hx. lia. }
        rewrite lookup_take_lt in Hx by assumption.
        rewrite contents_lookup in Hx by lia.
        injection Hx as <-. reflexivity.
    + unfold wf. cbn [hdr_len hdr_cap hdr_item_size data with_len].
      repeat split; lia.
  - assert (Hemp : contents v = []).
    { unfold contents. rewrite seqZ_nil by lia. reflexivity. }
    rewrite Hemp, take_nil.
    split; [reflexivity|]. split; [reflexivity|]. split; [reflexivity | exact Hwf].
Qed.

Lemma vec_pop_drops_last_witness :
  wf (mkvec 2 2 1 bytes_ab)
  /\ contents (vec_pop (mkvec 2 2 1 bytes_ab))
     = take (Z.to_nat (2 - 1)) (contents (mkvec 2 2 1 bytes_ab))
  /\ hdr_cap (vec_pop (mkvec 2 2 1 bytes_ab)) = 2
  /\ data (vec_pop (mkvec 2 2 1 bytes_ab)) = bytes_ab
  /\ wf (vec_pop (mkvec 2 2 1 bytes_ab)).
Proof.
  assert (Hwf : wf (mkvec 2 2 1 bytes_ab)) by (unfold wf; cbn; red_consts; lia).
  split; [exact Hwf|].
  exact (vec_pop_drops_last (mkvec 2 2 1 bytes_ab) Hwf).
Defined.

(** X9. [vec_clear] empties a well-formed vec and keeps its capacity and
    its block; if the capacity is at least one, the next [vec_push] runs
    without the allocator and leaves a vec that holds just the pushed
    item. *)
Theorem vec_clear_then_push (v : vec) (item : list byte) :
  wf v -> 1 <= hdr_cap v -> sizeof item = hdr_item_size v ->
  vec_isempty (vec_clear v) = true
  /\ contents (vec_clear v) = []
  /\ hdr_cap (vec_clear v) = hdr_cap v
  /\ data (vec_clear v) = data v
  /\ exists v',
       (forall r, vec_push r (vec_clear v) item = Done v')
       /\ contents v' = [item]
       /\ hdr_cap v' = hdr_cap v.
Proof.
  intros Hwf Hcap Hsz. pose proof Hwf as (Hs & Hl & Hc & Hd & Ht).
  assert (Hwfc : wf (vec_clear v)).
  { unfold wf, vec_clear. cbn [hdr_len hdr_cap hdr_item_size data with_len].
    repeat split; lia. }
  assert (Hne : hdr_len (vec_clear v) <> hdr_cap (vec_clear v))
    by (cbn [vec_clear hdr_len hdr_cap with_len]; lia).
  split; [reflexivity|]. split; [reflexivity|].
  split; [reflexivity|]. split; [reflexivity|].
  destruct (vec_push_appends None (vec_clear v) item Hwfc Hsz
              (can_grow_room None _ Hne))
    as (v' & Hrun & Hwf' & Hl' & Hs' & Hc' & Hlast & Hold).
  exists v'. split; [|split].
  - intros r. rewrite (vec_push_room r None) by assumption. exact Hrun.
  - change [item] with (contents (vec_clear v) ++ [item]).
    apply contents_snoc; [cbn; lia | assumption | assumption | assumption].
  - rewrite Hc'. rewrite (proj2 (Z.eqb_neq _ _)) by assumption. reflexivity.
Qed.

Lemma vec_clear_then_push_witness :
  wf (mkvec 2 2 1 bytes_ab) /\ 1 <= 2 /\ sizeof [x63] = 1
  /\ vec_isempty (vec_clear (mkvec 2 2 1 bytes_ab)) = true
  /\ contents (vec_clear (mkvec 2 2 1 bytes_ab)) = []
  /\ hdr_cap (vec_clear (mkvec 2 2 1 bytes_ab)) = 2
  /\ data (vec_clear (mkvec 2 2 1 bytes_ab)) = bytes_ab
  /\ exists v',
       (forall r, vec_push r (vec_clear (mkvec 2 2 1 bytes_ab)) [x63] = Done v')
       /\ contents v' = [[x63]]
       /\ hdr_cap v' = 2.
Proof.
  assert (Hwf : wf (mkvec 2 2 1 bytes_ab)) by (unfold wf; cbn; red_consts; lia).
  split; [exact Hwf|]. split; [lia|]. split; [reflexivity|].
  apply (vec_clear_then_push (mkvec 2 2 1 bytes_ab) [x63] Hwf); [cbn; lia | reflexivity].
Defined.

(** ** Appending a list of items *)

(** X10. Appending the items of a list, one [vec_push] each with memory
    granted, to a well-formed vec of capacity at least one gives a
    well-formed vec that holds the old items followed by the new ones in
    order.  The capacity never goes down and ends at most at the larger of
    the capacity at the start and twice the final length.  [K] bounds the
    capacities met on the way: its block size has to be a [size_t]. *)
Theorem vec_push_all_appends (junk : nat -> byte) (K : Z) (items : list (list byte)) :
  forall v : vec,
    wf v -> 1 <= hdr_cap v <= K ->
    K <= SIZE_MAX -> HDR + K * hdr_item_size v <= SIZE_MAX ->
    2 * (hdr_len v + Z.of_nat (length items)) <= K ->
    Forall (fun item => sizeof item = hdr_item_size v) items ->
    exists v',
      vec_push_all junk v items = Done v'
      /\ wf v'
      /\ contents v' = contents v ++ items
      /\ hdr_item_size v' = hdr_item_size v
      /\ hdr_cap v <= hdr_cap v' <= Z.max (hdr_cap v) (2 * hdr_len v').
Proof.
  induction items as [|item rest IH]; intros v Hwf Hc HK Hfit Hlen Hitems.
  - exists v. cbn [vec_push_all]. rewrite app_nil_r.
    split; [reflexivity|]. split; [assumption|]. split; [reflexivity|].
    split; [reflexivity | lia].
  - inversion Hitems as [|? ? Hitem Hrest]; subst.
    cbn [length] in Hlen.
    pose proof Hwf as (Hs & Hl & Hc' & Hd & Ht).
    assert (Hg : hdr_cap v < grown_cap (hdr_cap v) <= 2 * hdr_cap v).
    { unfold grown_cap. destruct (hdr_cap v <=? VEC_MAX_PREALLOC); lia. }
    assert (Hroom : can_grow (Some junk) v).
    { intros Hfull. split; [eexists; reflexivity|]. split; [lia|].
      split; [lia | nia]. }
    destruct (vec_push_appends (Some junk) v item Hwf Hitem Hroom)
      as (v1 & Hpush & Hwf1 & Hl1 & Hs1 & Hc1 & Hlast & Hold).
    assert (Hcap1 : hdr_cap v <= hdr_cap v1 <= Z.max (hdr_cap v) (2 * hdr_len v1)).
    { rewrite Hc1, Hl1. destruct (Z.eqb_spec (hdr_len v) (hdr_cap v)); lia. }
    assert (HcapK : 1 <= hdr_cap v1 <= K) by lia.
    destruct (IH v1 Hwf1 HcapK HK) as (v' & Hall & Hwf' & Hcont & Hs' & Hcap').
    + rewrite Hs1. assumption.
    + rewrite Hl1. lia.
    + rewrite Hs1. assumption.
    + exists v'. cbn [vec_push_all]. rewrite Hpush. cbn [mbind outcome_bind].
      split; [exact Hall|]. split; [assumption|].
      split; [|split; [congruence|]].
      * rewrite Hcont.
        rewrite (contents_snoc v v1 item) by (lia || assumption).
        rewrite <- app_assoc. reflexivity.
      * assert (hdr_len v1 <= hdr_len v').
        { destruct Hwf' as (_ & Hl' & _).
          assert (Hn : length (contents v') = length (contents v1 ++ rest))
            by (rewrite Hcont; reflexivity).
          rewrite length_app, !length_contents in Hn. lia. }
        lia.
Qed.

Lemma vec_push_all_appends_witness :
  wf (mkvec 1 0 4 [x00; x00; x00; x00]) /\ 1 <= 1 <= 16
  /\ 16 <= SIZE_MAX /\ HDR + 16 * 4 <= SIZE_MAX
  /\ 2 * (0 + Z.of_nat (length items_10_50)) <= 16
  /\ Forall (fun item => sizeof item = 4) items_10_50
  /\ exists v',
       vec_push_all junk_aa (mkvec 1 0 4 [x00; x00; x00; x00]) items_10_50 = Done v'
       /\ wf v'
       /\ contents v' = contents (mkvec 1 0 4 [x00; x00; x00; x00]) ++ items_10_50
       /\ hdr_item_size v' = 4
       /\ 1 <= hdr_cap v' <= Z.max 1 (2 * hdr_len v').
Proof.
  assert (Hwf : wf (mkvec 1 0 4 [x00; x00; x00; x00]))
    by (unfold wf; cbn; red_consts; lia).
  assert (Hitems : Forall (fun item => sizeof item = 4) items_10_50)
    by (repeat constructor).
  split; [exact Hwf|]. split; [lia|]. split; [red_consts; lia|].
  split; [red_consts; lia|]. split; [cbn; lia|]. split; [exact Hitems|].
  apply (vec_push_all_appends junk_aa 16 items_10_50
           (mkvec 1 0 4 [x00; x00; x00; x00]) Hwf);
    [cbn; lia | red_consts; lia | cbn; red_consts; lia | cbn; lia | exact Hitems].
Defined.

(** ** Construction *)

(** X11. With memory granted and a block size that is a [size_t],
    [vec_newlen] returns a well-formed empty vec of the asked capacity and
    item size whose every slot is zero, whatever the fresh block held;
    [vec_newsize] returns the same vec and [vec_new] the one of capacity
    one. *)
Theorem vec_newlen_zeroed (junk : nat -> byte) (size nitems : Z) :
  0 <= size <= SIZE_MAX -> 0 <= nitems <= SIZE_MAX ->
  HDR + size * nitems <= SIZE_MAX ->
  exists v,
    vec_newlen (Some junk) size nitems = Done v
    /\ vec_newsize (Some junk) size nitems = Done v
    /\ (nitems = 1 -> vec_new (Some junk) size = Done v)
    /\ wf v
    /\ vec_cap v = nitems /\ vec_len v = 0 /\ hdr_item_size v = size
    /\ vec_isempty v = true
    /\ (forall j, 0 <= j < nitems -> element v j = replicate (Z.to_nat size) x00).
Proof.
  intros Hs Hn Hfit.
  destruct (vec_newlen_done junk size nitems Hs Hn Hfit)
    as (v & Hrun & Hwf & Hc & Hl & Hi & Hd).
  exists v. split; [exact Hrun|]. split; [exact Hrun|].
  split; [intros ->; exact Hrun|]. split; [exact Hwf|].
  split; [exact Hc|]. split; [exact Hl|]. split; [exact Hi|].
  split; [unfold vec_isempty; rewrite Hl; reflexivity|].
  intros j Hj. unfold element. rewrite Hd, Hi.
  assert (0 <= j * size) by nia.
  assert (j * size + size <= size * nitems) by nia.
  rewrite drop_replicate, take_replicate. f_equal. lia.
Qed.

Lemma vec_newlen_zeroed_witness :
  0 <= 4 <= SIZE_MAX /\ 0 <= 2 <= SIZE_MAX /\ HDR + 4 * 2 <= SIZE_MAX
  /\ exists v,
       vec_newlen (Some junk_aa) 4 2 = Done v
       /\ vec_newsize (Some junk_aa) 4 2 = Done v
       /\ (2 = 1 -> vec_new (Some junk_aa) 4 = Done v)
       /\ wf v
       /\ vec_cap v = 2 /\ vec_len v = 0 /\ hdr_item_size v = 4
       /\ vec_isempty v = true
       /\ (forall j, 0 <= j < 2 -> element v j = replicate (Z.to_nat 4) x00).
Proof.
  split; [red_consts; lia|]. split; [red_consts; lia|]. split; [red_consts; lia|].
  apply (vec_newlen_zeroed junk_aa 4 2); red_consts; lia.
Defined.

(** X12. [vec_newlen] does not check the product of item size and item
    count.  When the product is too large for a [size_t] the block is
    sized by the product modulo [2^64], while the header still records the
    asked capacity: the vec that comes back has fewer bytes than its
    capacity calls for and is not well formed. *)
Theorem vec_newlen_size_overflow (junk : nat -> byte) (size nitems : Z) :
  0 <= size <= SIZE_MAX -> 0 <= nitems <= SIZE_MAX ->
  SIZE_MAX < size * nitems ->
  HDR + (size * nitems) mod 2 ^ 64 <= SIZE_MAX ->
  exists v,
    vec_newlen (Some junk) size nitems = Done v
    /\ hdr_cap v = nitems /\ hdr_item_size v = size
    /\ Z.of_nat (length (data v)) = (size * nitems) mod 2 ^ 64
    /\ Z.of_nat (length (data v)) < hdr_cap v * hdr_item_size v
    /\ ~ wf v.
Proof.
  intros Hs Hn Hover Hfit. unfold vec_newlen, size_t.
  pose proof (Z.mod_pos_bound (size * nitems) (2 ^ 64) ltac:(lia)) as Hm.
  set (m := (size * nitems) mod 2 ^ 64) in *.
  rewrite (Z.mod_small (HDR + m)) by (red_consts; lia).
  rewrite (proj2 (Z.ltb_ge _ _)) by lia.
  replace (HDR + m - HDR) with m by lia.
  unfold memset0. rewrite length_fresh.
  rewrite !(proj2 (Z.leb_le _ _)) by lia. cbn [andb].
  rewrite drop_ge by (rewrite length_fresh; lia). rewrite app_nil_r.
  eexists. split; [reflexivity|].
  cbn [hdr_cap hdr_item_size data]. rewrite length_replicate.
  split; [reflexivity|]. split; [reflexivity|].
  split; [lia|]. split; [red_consts; lia|].
  intros (_ & _ & _ & Hd & _).
  cbn [hdr_cap hdr_item_size data] in Hd. rewrite length_replicate in Hd.
  red_consts. lia.
Qed.

Lemma vec_newlen_size_overflow_witness :
  0 <= 2 ^ 32 <= SIZE_MAX /\ 0 <= 2 ^ 32 <= SIZE_MAX
  /\ SIZE_MAX < 2 ^ 32 * 2 ^ 32
  /\ HDR + (2 ^ 32 * 2 ^ 32) mod 2 ^ 64 <= SIZE_MAX
  /\ exists v,
       vec_newlen (Some junk_aa) (2 ^ 32) (2 ^ 32) = Done v
       /\ hdr_cap v = 2 ^ 32 /\ hdr_item_size v = 2 ^ 32
       /\ Z.of_nat (length (data v)) = (2 ^ 32 * 2 ^ 32) mod 2 ^ 64
       /\ Z.of_nat (length (data v)) < hdr_cap v * hdr_item_size v
       /\ ~ wf v.
Proof.
  assert (H1 : 0 <= 2 ^ 32 <= SIZE_MAX) by (vm_compute; split; discriminate).
  assert (H2 : SIZE_MAX < 2 ^ 32 * 2 ^ 32) by reflexivity.
  assert (H3 : HDR + (2 ^ 32 * 2 ^ 32) mod 2 ^ 64 <= SIZE_MAX)
    by (vm_compute; discriminate).
  split; [exact H1|]. split; [exact H1|]. split; [exact H2|]. split; [exact H3|].
  exact (vec_newlen_size_overflow junk_aa (2 ^ 32) (2 ^ 32) H1 H1 H2 H3).
Defined.

(** ** Copies *)

(** X13. With memory granted, [vec_dup] of a well-formed vec returns a vec
    with the same three header words and the same bytes in every slot of
    the capacity, the slots behind the length included, whatever the fresh
    block held. *)
Theorem vec_dup_whole_block (junk : nat -> byte) (v : vec) :
  wf v ->
  exists c,
    vec_dup (Some junk) v = Done c
    /\ vec_cap c = vec_cap v /\ vec_len c = vec_len v
    /\ hdr_item_size c = hdr_item_size v
    /\ data c = data v
    /\ contents c = contents v
    /\ (forall j, 0 <= j < hdr_cap v -> element c j = element v j).
Proof.
  intros Hwf. exists v. split; [apply vec_dup_copies; exact Hwf|].
  repeat split; reflexivity.
Qed.

Lemma vec_dup_whole_block_witness :
  wf (mkvec 2 1 1 bytes_ab)
  /\ exists c,
       vec_dup (Some junk_aa) (mkvec 2 1 1 bytes_ab) = Done c
       /\ vec_cap c = 2 /\ vec_len c = 1
       /\ hdr_item_size c = 1
       /\ data c = bytes_ab
       /\ contents c = contents (mkvec 2 1 1 bytes_ab)
       /\ (forall j, 0 <= j < 2 -> element c j = element (mkvec 2 1 1 bytes_ab) j).
Proof.
  assert (Hwf : wf (mkvec 2 1 1 bytes_ab)) by (unfold wf; cbn; red_consts; lia).
  split; [exact Hwf|].
  exact (vec_dup_whole_block junk_aa (mkvec 2 1 1 bytes_ab) Hwf).
Defined.

(** ** Shrinking and reserving *)

Lemma vec_shrink_keeps (junk : nat -> byte) (v : vec) :
  wf v -> hdr_cap v <> hdr_len v ->
  exists v1,
    vec_shrink (Some junk) v = Done v1
    /\ wf v1
    /\ hdr_cap v1 = Z.max (hdr_len v) 1
    /\ hdr_len v1 = hdr_len v
    /\ hdr_item_size v1 = hdr_item_size v
    /\ contents v1 = contents v.
Proof.
  intros Hwf Hne. pose proof Hwf as (Hs & Hl & Hc & Hd & Ht).
  eexists. split; [apply vec_shrink_done; assumption|].
  assert (0 <= Z.max (hdr_len v) 1 * hdr_item_size v
          <= hdr_cap v * hdr_item_size v) by nia.
  split; [|split; [|split; [|split]]]; try reflexivity.
  - unfold wf. cbn [hdr_len hdr_cap hdr_item_size data with_cap with_data].
    rewrite length_resize_block. repeat split; lia.
  - apply contents_ext; [lia | reflexivity |].
    intros j Hj. rewrite !element_slice.
    cbn [hdr_len hdr_cap hdr_item_size data with_cap with_data].
    assert (0 <= j * hdr_item_size v) by nia.
    assert (j * hdr_item_size v + hdr_item_size v
            <= Z.max (hdr_len v) 1 * hdr_item_size v) by nia.
    apply slice_resize_block; lia.
Qed.

(** X14. After [vec_shrink] of a well-formed vec that is not empty the
    capacity equals the length and the items are the same, and a second
    [vec_shrink] returns that vec unchanged without the allocator. *)
Theorem vec_shrink_twice (junk : nat -> byte) (v : vec) :
  wf v -> 1 <= hdr_len v ->
  exists v1,
    vec_shrink (Some junk) v = Done v1
    /\ wf v1
    /\ hdr_cap v1 = hdr_len v
    /\ hdr_len v1 = hdr_len v
    /\ contents v1 = contents v
    /\ (forall r, vec_shrink r v1 = Done v1).
Proof.
  intros Hwf Hpos.
  assert (Htight : forall w r, hdr_cap w = hdr_len w -> vec_shrink r w = Done w).
  { intros w r Heq. unfold vec_shrink.
    rewrite (proj2 (Z.eqb_eq _ _)) by assumption. reflexivity. }
  destruct (Z.eq_dec (hdr_cap v) (hdr_len v)) as [Heq|Hne].
  - exists v. split; [apply Htight; assumption|].
    split; [assumption|]. split; [assumption|]. split; [reflexivity|].
    split; [reflexivity|]. intros r. apply Htight. assumption.
  - destruct (vec_shrink_keeps junk v Hwf Hne)
      as (v1 & Hrun & Hwf1 & Hc1 & Hl1 & Hs1 & Hcont).
    exists v1. split; [exact Hrun|]. split; [exact Hwf1|].
    split; [lia|]. split; [exact Hl1|]. split; [exact Hcont|].
    intros r. apply Htight. lia.
Qed.

Lemma vec_shrink_twice_witness :
  wf (mkvec 4 2 1 [x61; x62; xaa; xaa]) /\ 1 <= 2
  /\ exists v1,
       vec_shrink (Some junk_aa) (mkvec 4 2 1 [x61; x62; xaa; xaa]) = Done v1
       /\ wf v1
       /\ hdr_cap v1 = 2
       /\ hdr_len v1 = 2
       /\ contents v1 = contents (mkvec 4 2 1 [x61; x62; xaa; xaa])
       /\ (forall r, vec_shrink r v1 = Done v1).
Proof.
  assert (Hwf : wf (mkvec 4 2 1 [x61; x62; xaa; xaa]))
    by (unfold wf; cbn; red_consts; lia).
  split; [exact Hwf|]. split; [lia|].
  apply (vec_shrink_twice junk_aa (mkvec 4 2 1 [x61; x62; xaa; xaa]) Hwf).
  cbn. lia.
Defined.

(** X15. An empty vec of capacity at least one is never tight for
    [vec_shrink]: the call reallocates to one item, also when the capacity
    is one already, so it is killed by a null answer, and so is the next
    [vec_shrink] after one that went through. *)
Theorem vec_shrink_empty_reallocates (junk : nat -> byte) (v : vec) :
  wf v -> hdr_len v = 0 -> 1 <= hdr_cap v ->
  vec_shrink None v = Killed v
  /\ exists v1,
       vec_shrink (Some junk) v = Done v1
       /\ hdr_cap v1 = 1 /\ hdr_len v1 = 0
       /\ vec_shrink None v1 = Killed v1.
Proof.
  intros Hwf Hemp Hcap.
  assert (Hkill : forall w, hdr_cap w <> hdr_len w -> vec_shrink None w = Killed w).
  { intros w Hne. unfold vec_shrink.
    rewrite (proj2 (Z.eqb_neq _ _)) by assumption. reflexivity. }
  assert (Hne : hdr_cap v <> hdr_len v) by lia.
  split; [apply Hkill; assumption|].
  destruct (vec_shrink_keeps junk v Hwf Hne)
    as (v1 & Hrun & Hwf1 & Hc1 & Hl1 & Hs1 & Hcont).
  exists v1. split; [exact Hrun|]. split; [lia|]. split; [lia|].
  apply Hkill. lia.
Qed.

Lemma vec_shrink_empty_reallocates_witness :
  wf (mkvec 1 0 1 [x61]) /\ 0 = 0 /\ 1 <= 1
  /\ vec_shrink None (mkvec 1 0 1 [x61]) = Killed (mkvec 1 0 1 [x61])
  /\ exists v1,
       vec_shrink (Some junk_aa) (mkvec 1 0 1 [x61]) = Done v1
       /\ hdr_cap v1 = 1 /\ hdr_len v1 = 0
       /\ vec_shrink None v1 = Killed v1.
Proof.
  assert (Hwf : wf (mkvec 1 0 1 [x61])) by (unfold wf; cbn; red_consts; lia).
  split; [exact Hwf|]. split; [reflexivity|]. split; [lia|].
  apply (vec_shrink_empty_reallocates junk_aa (mkvec 1 0 1 [x61]) Hwf);
    [reflexivity | cbn; lia].
Defined.




(** ** Arguments of [vec_reserve] *)

Lemma conv_ULong_negative (z : Z) :
  - 2 ^ 63 <= z < 0 -> conv ULong z = 2 ^ 64 + z.
Proof. intros H. unfold conv. cbn [signed bits]. mod_lia. Qed.

(** X17. [vec_reserve] with a negative [int] or [long] is never ignored
    on a vec whose capacity is below the argument read as a [size_t]: the
    call does not return the vec it was given; it is killed by a null
    answer, and when it returns the capacity word is [2^64 + size]. *)
Theorem vec_reserve_negative_not_ignored (r : reply) (v : vec) (size : cint) :
  in_range size -> bits (ty size) <= 64 -> val size < 0 ->
  0 <= hdr_cap v < 2 ^ 64 + val size ->
  vec_reserve r v size <> Done v
  /\ (r = None -> vec_reserve r v size = Killed v)
  /\ (forall v', vec_reserve r v size = Done v' -> hdr_cap v' = 2 ^ 64 + val size).
Proof.
  intros Hr Hb Hneg Hc.
  assert (Hconv : val (cast ULong size) = 2 ^ 64 + val size).
  { apply in_range_bounds in Hr. destruct size as [t z].
    cbn [cast val ty] in *. apply conv_ULong_negative.
    destruct t; cbn [signed bits] in *; red_consts; lia. }
  unfold vec_reserve. rewrite reserve_guard_negative by assumption.
  rewrite Hconv. unfold reallocate.
  destruct r as [junk|]; [|repeat split; discriminate].
  destruct (_ <? HDR); [repeat split; discriminate|].
  cbn [mbind outcome_bind]. split; [|split].
  - intros H. injection H as H. apply (f_equal hdr_cap) in H.
    cbn [hdr_cap with_cap] in H. lia.
  - discriminate.
  - intros v' [= <-]. reflexivity.
Qed.

Lemma vec_reserve_negative_not_ignored_witness :
  in_range (mkint Long (-2)) /\ bits Long <= 64 /\ -2 < 0
  /\ 0 <= 2 < 2 ^ 64 + -2
  /\ vec_reserve (Some junk_aa) (mkvec 2 2 1 bytes_ab) (mkint Long (-2))
     <> Done (mkvec 2 2 1 bytes_ab)
  /\ (forall v',
        vec_reserve (Some junk_aa) (mkvec 2 2 1 bytes_ab) (mkint Long (-2)) = Done v' ->
        hdr_cap v' = 2 ^ 64 + -2).
Proof.
  assert (H1 : 0 <= 2 < 2 ^ 64 + -2) by (vm_compute; split; [discriminate | reflexivity]).
  split; [reflexivity|]. split; [vm_compute; discriminate|]. split; [lia|].
  split; [exact H1|].
  destruct (vec_reserve_negative_not_ignored (Some junk_aa) (mkvec 2 2 1 bytes_ab)
              (mkint Long (-2)) eq_refl ltac:(vm_compute; discriminate)
              ltac:(cbn; lia) H1) as (Hne & _ & Hcap).
  split; [exact Hne | exact Hcap].
Defined.

(** X18. The test [(size_t) size == size] does its work for an argument
    of a type wider than [size_t]: a value below zero or above [SIZE_MAX]
    makes [vec_reserve] return the vec as it was, without the
    allocator. *)
Theorem vec_reserve_wide_argument_checked (r : reply) (v : vec) (size : cint) :
  ty size = Int128 -> in_range size ->
  val size < 0 \/ SIZE_MAX < val size ->
  vec_reserve r v size = Done v.
Proof.
  intros Ht Hr Hout. apply in_range_bounds in Hr.
  destruct size as [t z]. cbn [ty val] in *. subst t.
  assert (Hg : reserve_guard v (mkint Int128 z) = false).
  { unfold reserve_guard, c_eq, c_cmp, cast. cbn [ty val]. red_arith.
    apply andb_false_intro1. apply Z.eqb_neq.
    unfold conv in *. cbn [signed bits] in *. mod_lia. }
  unfold vec_reserve. rewrite Hg. reflexivity.
Qed.

Lemma vec_reserve_wide_argument_checked_witness :
  ty (mkint Int128 (-1)) = Int128 /\ in_range (mkint Int128 (-1))
  /\ (-1 < 0 \/ SIZE_MAX < -1)
  /\ vec_reserve None (mkvec 2 2 1 bytes_ab) (mkint Int128 (-1))
     = Done (mkvec 2 2 1 bytes_ab).
Proof.
  split; [reflexivity|]. split; [reflexivity|]. split; [left; lia|].
  apply (vec_reserve_wide_argument_checked None (mkvec 2 2 1 bytes_ab)
           (mkint Int128 (-1)) eq_refl eq_refl).
  left. cbn. lia.
Defined.

(** X19. [vec_reserve] does not check the product of size and item size.
    When the product is too large for a [size_t] the block is reallocated
    to the product modulo [2^64] while the capacity word becomes the asked
    size: the vec that comes back has fewer bytes than its capacity calls
    for and is not well formed. *)
Theorem vec_reserve_size_overflow (junk : nat -> byte) (v : vec) (size : cint) :
  wf v -> in_range size -> bits (ty size) <= 64 ->
  hdr_cap v < val size <= SIZE_MAX ->
  SIZE_MAX < val size * hdr_item_size v ->
  HDR + (val size * hdr_item_size v) mod 2 ^ 64 <= SIZE_MAX ->
  exists v',
    vec_reserve (Some junk) v size = Done v'
    /\ hdr_cap v' = val size
    /\ hdr_len v' = hdr_len v
    /\ Z.of_nat (length (data v')) = (val size * hdr_item_size v) mod 2 ^ 64
    /\ ~ wf v'.
Proof.
  intros (Hs & Hl & Hc & Hd & Ht) Hr Hb Hn Hover Hfit.
  pose proof (Z.mod_pos_bound (val size * hdr_item_size v) (2 ^ 64) ltac:(lia)) as Hm.
  assert (Hreq : val (cast ULong (c_add (sz HDR) (c_mul size (sz (hdr_item_size v)))))
                 = HDR + (val size * hdr_item_size v) mod 2 ^ 64).
  { destruct size as [t z]. cbn [ty val] in *.
    set (m := (z * hdr_item_size v) mod 2 ^ 64) in *.
    assert (Hprod : conv ULong (z * hdr_item_size v) = m) by reflexivity.
    assert (0 <= HDR <= SIZE_MAX) by (red_consts; lia).
    unfold cast, c_add, c_mul, c_arith, sz. cbn [ty val].
    destruct t; cbn [bits] in Hb; try lia; red_arith;
      rewrite (conv_ULong z), (conv_ULong (hdr_item_size v)), (conv_ULong HDR),
        Hprod, (conv_ULong m), !(conv_ULong (HDR + m)) by lia;
      reflexivity. }
  unfold vec_reserve.
  rewrite reserve_guard_spec by (assumption || lia).
  rewrite (proj2 (Z.ltb_lt _ _)) by lia.
  rewrite Hreq. unfold reallocate.
  rewrite (proj2 (Z.ltb_ge _ _)) by lia.
  cbn [mbind outcome_bind cast val].
  rewrite conv_ULong by lia.
  eexists. split; [reflexivity|].
  cbn [hdr_len hdr_cap hdr_item_size data with_cap with_data].
  rewrite length_resize_block.
  split; [reflexivity|]. split; [reflexivity|]. split; [lia|].
  intros (_ & _ & _ & Hd' & _).
  cbn [hdr_len hdr_cap hdr_item_size data with_cap with_data] in Hd'.
  rewrite length_resize_block in Hd'. red_consts. lia.
Qed.

Lemma vec_reserve_size_overflow_witness :
  wf (mkvec 1 1 4 item_10) /\ in_range (mkint ULong (2 ^ 62))
  /\ bits ULong <= 64 /\ 1 < 2 ^ 62 <= SIZE_MAX
  /\ SIZE_MAX < 2 ^ 62 * 4
  /\ HDR + (2 ^ 62 * 4) mod 2 ^ 64 <= SIZE_MAX
  /\ exists v',
       vec_reserve (Some junk_aa) (mkvec 1 1 4 item_10) (mkint ULong (2 ^ 62)) = Done v'
       /\ hdr_cap v' = 2 ^ 62
       /\ hdr_len v' = 1
       /\ Z.of_nat (length (data v')) = (2 ^ 62 * 4) mod 2 ^ 64
       /\ ~ wf v'.
Proof.
  assert (Hwf : wf (mkvec 1 1 4 item_10)) by (unfold wf; cbn; red_consts; lia).
  assert (H1 : 1 < 2 ^ 62 <= SIZE_MAX) by (vm_compute; split; [reflexivity | discriminate]).
  assert (H2 : SIZE_MAX < 2 ^ 62 * 4) by reflexivity.
  assert (H3 : HDR + (2 ^ 62 * 4) mod 2 ^ 64 <= SIZE_MAX) by (vm_compute; discriminate).
  assert (H4 : bits ULong <= 64) by (vm_compute; discriminate).
  split; [exact Hwf|]. split; [reflexivity|]. split; [exact H4|].
  split; [exact H1|]. split; [exact H2|]. split; [exact H3|].
  exact (vec_reserve_size_overflow junk_aa (mkvec 1 1 4 item_10) (mkint ULong (2 ^ 62))
           Hwf eq_refl H4 H1 H2 H3).
Defined.

(** ** The invariant over sequences of calls *)



